(** * distrilock: the lock daemon's request processing, embedded in Rocq

    The development follows the two Go packages of the repository:
    - [api]: the wire enums and the request and response descriptors;
    - [core]: the registry ([knownResources], [resourceAcquiredBy], guarded by
      [knownResourcesLock]) and the functions [ProcessRequest],
      [ProcessDisconnect], [acquire], [peek], [release], [verifyOwnership].

    Go values are modelled as follows.  A [uint8] enum is a [Z]; a Go string is
    a [string] (a sequence of bytes); the pointers [*os.File] and
    [*net.TCPConn] are [positive] identities, compared by equality only; the
    two Go maps are [gmap]s.  Code that mutates the package-level variables and
    the operating system is written in a state monad whose failure is a Go
    panic. *)

From Stdlib Require Import ZArith Ascii String List.
From stdpp Require Import gmap strings pretty list fin_maps fin_sets.

(* ===================================================================== *)
(** * Package api *)
(* ===================================================================== *)

Module api.

(** [type LockCommand uint8] and [type LockCommandResult uint8]. *)
Abbreviation LockCommand := Z (only parsing).
Abbreviation LockCommandResult := Z (only parsing).

Definition VersionMajor : Z := 0.
Definition VersionMinor : Z := 1.

(** The first [const ( ... iota ... )] block: consecutive values from 0. *)
Definition invalidCommand : LockCommand := 0.
Definition Peek : LockCommand := 1.
Definition Acquire : LockCommand := 2.
Definition Release : LockCommand := 3.
Definition Verify : LockCommand := 4.

(** The second [iota] block. *)
Definition invalidResult : LockCommandResult := 0.
Definition Failed : LockCommandResult := 1.
Definition Success : LockCommandResult := 2.
Definition BadRequest : LockCommandResult := 3.
Definition InternalError : LockCommandResult := 4.

Record LockRequest := mkLockRequest {
  VersionMajorOf : Z;
  VersionMinorOf : Z;
  Command : LockCommand;
  LockName : string
}.

(** [LockResponse] embeds the request it answers. *)
Record LockResponse := mkLockResponse {
  Request : LockRequest;
  Result : LockCommandResult;
  Reason : string;
  IsLocked : bool
}.

End api.

(* ===================================================================== *)
(** * Regular expressions, as far as [validLockNameRx] needs them *)
(* ===================================================================== *)

Module rx.

Inductive regexp : Type :=
| Void                                       (* matches nothing *)
| Eps                                        (* the empty string *)
| Class (ranges : list (ascii * ascii))      (* [a-b...] *)
| Cat (r1 r2 : regexp)
| Alt (r1 r2 : regexp)
| Star (r : regexp).

(** [r+] *)
Definition Plus (r : regexp) : regexp := Cat r (Star r).

Definition in_range (c : ascii) (rg : ascii * ascii) : bool :=
  (nat_of_ascii (fst rg) <=? nat_of_ascii c)%nat && (nat_of_ascii c <=? nat_of_ascii (snd rg))%nat.

Definition in_class (ranges : list (ascii * ascii)) (c : ascii) : bool :=
  existsb (in_range c) ranges.

Fixpoint nullable (r : regexp) : bool :=
  match r with
  | Void => false
  | Eps => true
  | Class _ => false
  | Cat r1 r2 => nullable r1 && nullable r2
  | Alt r1 r2 => nullable r1 || nullable r2
  | Star _ => true
  end.

(** Brzozowski derivative of [r] by the byte [c]. *)
Fixpoint deriv (c : ascii) (r : regexp) : regexp :=
  match r with
  | Void => Void
  | Eps => Void
  | Class ranges => if in_class ranges c then Eps else Void
  | Cat r1 r2 =>
      if nullable r1 then Alt (Cat (deriv c r1) r2) (deriv c r2)
      else Cat (deriv c r1) r2
  | Alt r1 r2 => Alt (deriv c r1) (deriv c r2)
  | Star r1 => Cat (deriv c r1) (Star r1)
  end.

(** Matching of the whole text: what [MatchString] decides for a pattern
    written between [^] and [$]. *)
Fixpoint fullmatch (r : regexp) (s : string) : bool :=
  match s with
  | EmptyString => nullable r
  | String c s' => fullmatch (deriv c r) s'
  end.

(** The language of a regular expression, as a relation. *)
Inductive matches : regexp → string → Prop :=
| m_eps : matches Eps EmptyString
| m_class ranges c : in_class ranges c = true → matches (Class ranges) (String c EmptyString)
| m_cat r1 r2 s1 s2 : matches r1 s1 → matches r2 s2 → matches (Cat r1 r2) (s1 +:+ s2)
| m_alt_l r1 r2 s : matches r1 s → matches (Alt r1 r2) s
| m_alt_r r1 r2 s : matches r2 s → matches (Alt r1 r2) s
| m_star_nil r : matches (Star r) EmptyString
| m_star_app r s1 s2 : matches r s1 → matches (Star r) s2 → matches (Star r) (s1 +:+ s2).

(** Every byte of [s] satisfies [p]. *)
Fixpoint string_forallb (p : ascii → bool) (s : string) : bool :=
  match s with
  | EmptyString => true
  | String c s' => p c && string_forallb p s'
  end.

End rx.

(* ===================================================================== *)
(** * Package core *)
(* ===================================================================== *)

Module core.
Import api.

(** [*os.File] and [*net.TCPConn]: pointer identities. *)
Abbreviation file := positive (only parsing).
Abbreviation conn := positive (only parsing).

(** ** Go errors

    The dynamic types the daemon tells apart with type assertions:
    [syscall.Errno], [*os.PathError], and any other error value. *)
Inductive error : Type :=
| Errno (e : Z)
| PathError (Op Path : string) (Err : error)
| errorString (s : string).

Definition ENOENT : Z := 2.
Definition EAGAIN : Z := 11.
Definition EACCES : Z := 13.

(** [Errno.Error()] looks the code up in the message table [errors] of
    package syscall (the table of linux/amd64, indexed by the code, with empty
    slots for the codes the system does not use) and renders a code without
    message by [errno_other]. *)
Definition errno_other (e : Z) : string := "errno " +:+ pretty e.

Definition errors : list string := [
  (*   0 *) "";
  (*   1 *) "operation not permitted";
  (*   2 *) "no such file or directory";
  (*   3 *) "no such process";
  (*   4 *) "interrupted system call";
  (*   5 *) "input/output error";
  (*   6 *) "no such device or address";
  (*   7 *) "argument list too long";
  (*   8 *) "exec format error";
  (*   9 *) "bad file descriptor";
  (*  10 *) "no child processes";
  (*  11 *) "resource temporarily unavailable";
  (*  12 *) "cannot allocate memory";
  (*  13 *) "permission denied";
  (*  14 *) "bad address";
  (*  15 *) "block device required";
  (*  16 *) "device or resource busy";
  (*  17 *) "file exists";
  (*  18 *) "invalid cross-device link";
  (*  19 *) "no such device";
  (*  20 *) "not a directory";
  (*  21 *) "is a directory";
  (*  22 *) "invalid argument";
  (*  23 *) "too many open files in system";
  (*  24 *) "too many open files";
  (*  25 *) "inappropriate ioctl for device";
  (*  26 *) "text file busy";
  (*  27 *) "file too large";
  (*  28 *) "no space left on device";
  (*  29 *) "illegal seek";
  (*  30 *) "read-only file system";
  (*  31 *) "too many links";
  (*  32 *) "broken pipe";
  (*  33 *) "numerical argument out of domain";
  (*  34 *) "numerical result out of range";
  (*  35 *) "resource deadlock avoided";
  (*  36 *) "file name too long";
  (*  37 *) "no locks available";
  (*  38 *) "function not implemented";
  (*  39 *) "directory not empty";
  (*  40 *) "too many levels of symbolic links";
  (*  41 *) "";
  (*  42 *) "no message of desired type";
  (*  43 *) "identifier removed";
  (*  44 *) "channel number out of range";
  (*  45 *) "level 2 not synchronized";
  (*  46 *) "level 3 halted";
  (*  47 *) "level 3 reset";
  (*  48 *) "link number out of range";
  (*  49 *) "protocol driver not attached";
  (*  50 *) "no CSI structure available";
  (*  51 *) "level 2 halted";
  (*  52 *) "invalid exchange";
  (*  53 *) "invalid request descriptor";
  (*  54 *) "exchange full";
  (*  55 *) "no anode";
  (*  56 *) "invalid request code";
  (*  57 *) "invalid slot";
  (*  58 *) "";
  (*  59 *) "bad font file format";
  (*  60 *) "device not a stream";
  (*  61 *) "no data available";
  (*  62 *) "timer expired";
  (*  63 *) "out of streams resources";
  (*  64 *) "machine is not on the network";
  (*  65 *) "package not installed";
  (*  66 *) "object is remote";
  (*  67 *) "link has been severed";
  (*  68 *) "advertise error";
  (*  69 *) "srmount error";
  (*  70 *) "communication error on send";
  (*  71 *) "protocol error";
  (*  72 *) "multihop attempted";
  (*  73 *) "RFS specific error";
  (*  74 *) "bad message";
  (*  75 *) "value too large for defined data type";
  (*  76 *) "name not unique on network";
  (*  77 *) "file descriptor in bad state";
  (*  78 *) "remote address changed";
  (*  79 *) "can not access a needed shared library";
  (*  80 *) "accessing a corrupted shared library";
  (*  81 *) ".lib section in a.out corrupted";
  (*  82 *) "attempting to link in too many shared libraries";
  (*  83 *) "cannot exec a shared library directly";
  (*  84 *) "invalid or incomplete multibyte or wide character";
  (*  85 *) "interrupted system call should be restarted";
  (*  86 *) "streams pipe error";
  (*  87 *) "too many users";
  (*  88 *) "socket operation on non-socket";
  (*  89 *) "destination address required";
  (*  90 *) "message too long";
  (*  91 *) "protocol wrong type for socket";
  (*  92 *) "protocol not available";
  (*  93 *) "protocol not supported";
  (*  94 *) "socket type not supported";
  (*  95 *) "operation not supported";
  (*  96 *) "protocol family not supported";
  (*  97 *) "address family not supported by protocol";
  (*  98 *) "address already in use";
  (*  99 *) "cannot assign requested address";
  (* 100 *) "network is down";
  (* 101 *) "network is unreachable";
  (* 102 *) "network dropped connection on reset";
  (* 103 *) "software caused connection abort";
  (* 104 *) "connection reset by peer";
  (* 105 *) "no buffer space available";
  (* 106 *) "transport endpoint is already connected";
  (* 107 *) "transport endpoint is not connected";
  (* 108 *) "cannot send after transport endpoint shutdown";
  (* 109 *) "too many references: cannot splice";
  (* 110 *) "connection timed out";
  (* 111 *) "connection refused";
  (* 112 *) "host is down";
  (* 113 *) "no route to host";
  (* 114 *) "operation already in progress";
  (* 115 *) "operation now in progress";
  (* 116 *) "stale NFS file handle";
  (* 117 *) "structure needs cleaning";
  (* 118 *) "not a XENIX named type file";
  (* 119 *) "no XENIX semaphores available";
  (* 120 *) "is a named type file";
  (* 121 *) "remote I/O error";
  (* 122 *) "disk quota exceeded";
  (* 123 *) "no medium found";
  (* 124 *) "wrong medium type";
  (* 125 *) "operation canceled";
  (* 126 *) "required key not available";
  (* 127 *) "key has expired";
  (* 128 *) "key has been revoked";
  (* 129 *) "key was rejected by service";
  (* 130 *) "owner died";
  (* 131 *) "state not recoverable";
  (* 132 *) "operation not possible due to RF-kill";
  (* 133 *) "memory page has hardware error"
].

Definition errno_text (e : Z) : string :=
  if decide (0 ≤ e < Z.of_nat (length errors))%Z then
    match errors !! Z.to_nat e with
    | Some s => if decide (s = EmptyString) then errno_other e else s
    | None => errno_other e
    end
  else errno_other e.

(** [err.Error()] *)
Fixpoint Error (err : error) : string :=
  match err with
  | Errno e => errno_text e
  | PathError op path e => op +:+ " " +:+ path +:+ ": " +:+ Error e
  | errorString s => s
  end.

(** [e, ok := err.(syscall.Errno); ok && (e == EAGAIN || e == EACCES)] *)
Definition is_contention (err : error) : bool :=
  match err with
  | Errno e => bool_decide (e = EAGAIN) || bool_decide (e = EACCES)
  | _ => false
  end.

(** The error is an [os.PathError] pointer whose [Err] is [syscall.ENOENT]. *)
Definition is_not_exist (err : error) : bool :=
  match err with
  | PathError _ _ (Errno e) => bool_decide (e = ENOENT)
  | _ => false
  end.

(** ** The state: package variables and the part of the system they touch *)

(** [sync.RWMutex], seen from the one goroutine that runs a command. *)
Inductive RWMutex : Type := Unlocked | RLocked | WLocked.

Record State := mkState {
  knownResources : gmap string file;      (* lock name → open lock file *)
  resourceAcquiredBy : gmap file conn;    (* open lock file → owning connection *)
  knownResourcesLock : RWMutex;
  disk : gset string;                     (* paths that exist in the file system *)
  opened : gmap file string;              (* open files and the path of each *)
  flocked : gset file                     (* files through which the process holds the advisory lock *)
}.

Definition set_knownResources (m : gmap string file) (st : State) : State :=
  mkState m (resourceAcquiredBy st) (knownResourcesLock st) (disk st) (opened st) (flocked st).
Definition set_resourceAcquiredBy (m : gmap file conn) (st : State) : State :=
  mkState (knownResources st) m (knownResourcesLock st) (disk st) (opened st) (flocked st).
Definition set_knownResourcesLock (mu : RWMutex) (st : State) : State :=
  mkState (knownResources st) (resourceAcquiredBy st) mu (disk st) (opened st) (flocked st).
Definition set_disk (d : gset string) (st : State) : State :=
  mkState (knownResources st) (resourceAcquiredBy st) (knownResourcesLock st) d (opened st) (flocked st).
Definition set_opened (o : gmap file string) (st : State) : State :=
  mkState (knownResources st) (resourceAcquiredBy st) (knownResourcesLock st) (disk st) o (flocked st).
Definition set_flocked (l : gset file) (st : State) : State :=
  mkState (knownResources st) (resourceAcquiredBy st) (knownResourcesLock st) (disk st) (opened st) l.

(** The daemon at start-up: empty maps, a free mutex, no open file; the
    directory may already hold lock files of an earlier run. *)
Definition initial (d : gset string) : State :=
  mkState ∅ ∅ Unlocked d ∅ ∅.

(** ** The monad: state passing, with Go's [panic] as failure *)

Inductive outcome (A : Type) : Type :=
| Done (a : A) (st : State)
| Panicked (msg : string).
Arguments Done {A} a st.
Arguments Panicked {A} msg.

Definition M (A : Type) : Type := State → outcome A.

#[global] Instance M_ret : MRet M := λ A a st, Done a st.
#[global] Instance M_bind : MBind M := λ A B k m st,
  match m st with
  | Done a st' => k a st'
  | Panicked msg => Panicked msg
  end.

Definition get {A} (proj : State → A) : M A := λ st, Done (proj st) st.
Definition modify (f : State → State) : M unit := λ st, Done tt (f st).
Definition panic {A} (msg : string) : M A := λ _, Panicked msg.

(** ** [sync.RWMutex] methods

    A command runs alone here, so a lock request on a held mutex would wait
    for ever, and unlocking a mutex that is not held is a fatal runtime error;
    both end the run. *)
Definition RLock : M unit := λ st,
  match knownResourcesLock st with
  | Unlocked => Done tt (set_knownResourcesLock RLocked st)
  | _ => Panicked "fatal error: all goroutines are asleep - deadlock!"
  end.
Definition RUnlock : M unit := λ st,
  match knownResourcesLock st with
  | RLocked => Done tt (set_knownResourcesLock Unlocked st)
  | _ => Panicked "fatal error: sync: RUnlock of unlocked RWMutex"
  end.
Definition Lock : M unit := λ st,
  match knownResourcesLock st with
  | Unlocked => Done tt (set_knownResourcesLock WLocked st)
  | _ => Panicked "fatal error: all goroutines are asleep - deadlock!"
  end.
Definition Unlock : M unit := λ st,
  match knownResourcesLock st with
  | WLocked => Done tt (set_knownResourcesLock Unlocked st)
  | _ => Panicked "fatal error: sync: Unlock of unlocked RWMutex"
  end.

(** ** The operating system

    What the system answers to the calls of one command: each field is the
    error of one call ([None] for success).  A command makes each call at most
    once.  An open or a remove can fail in any way whether or not the file
    exists (too many open files, a name too long, no permission); when the
    system raises no such error, a read-only open or a remove of a path that
    does not exist still fails, with ENOENT. *)
Record Env := mkEnv {
  open_err : option error;      (* os.OpenFile *)
  lock_err : option error;      (* acquireLockDirect *)
  write_err : option error;     (* f.Write *)
  unlock_err : option error;    (* releaseLock *)
  remove_err : option error;    (* os.Remove *)
  probe_unlocked : bool;        (* isUnlocked: the file is locked by nobody *)
  probe_err : option error      (* isUnlocked *)
}.

(** Every pointer the program or the system still refers to; a newly
    allocated [*os.File] differs from all of them. *)
Definition live (st : State) : gset file :=
  map_img (knownResources st) ∪ dom (resourceAcquiredBy st) ∪ dom (opened st) ∪ flocked st.

(** [os.OpenFile(name, flag, 0664)] with [flag] either [O_RDWR|O_CREATE]
    ([create = true]) or [O_RDONLY]. *)
Definition OpenFile (os : Env) (name : string) (create : bool) : M (file + error) := λ st,
  match open_err os with
  | Some err => Done (inr err) st
  | None =>
      if negb create && bool_decide (name ∉ disk st)
      then Done (inr (PathError "open" name (Errno ENOENT))) st
      else
        let f := fresh (live st) in
        let st1 := set_opened (<[f := name]> (opened st)) st in
        Done (inl f) (if create then set_disk ({[name]} ∪ disk st) st1 else st1)
  end.

(** [f.Close()]: the descriptor goes away, and with it the advisory lock the
    process holds through it.  The daemon ignores the returned error
    everywhere. *)
Definition Close (f : file) : M unit :=
  modify (λ st, set_flocked (flocked st ∖ {[f]}) (set_opened (delete f (opened st)) st)).

(** [f.Write(...)]: the marker text is diagnostic only and is not kept. *)
Definition Write (os : Env) (f : file) : M (option error) := λ st,
  Done (write_err os) st.

(** [os.Remove(name)] *)
Definition Remove (os : Env) (name : string) : M (option error) := λ st,
  match remove_err os with
  | Some err => Done (Some err) st
  | None =>
      if bool_decide (name ∉ disk st)
      then Done (Some (PathError "remove" name (Errno ENOENT))) st
      else Done None (set_disk (disk st ∖ {[name]}) st)
  end.

(** Modelled from the spec: [acquireLockDirect], which is not part of the
    sources at hand.  Section 4.2, TryExclusiveLock: a non-blocking request for
    an exclusive advisory lock on the whole file, which is acquired, contended
    (an [Errno] EAGAIN or EACCES) or fails with a system error. *)
Definition acquireLockDirect (os : Env) (f : file) : M (option error) := λ st,
  match lock_err os with
  | Some err => Done (Some err) st
  | None => Done None (set_flocked ({[f]} ∪ flocked st) st)
  end.

(** Modelled from the spec: [releaseLock], which is not part of the sources at
    hand.  Section 4.2, Unlock: releases the advisory lock; a system error
    propagates. *)
Definition releaseLock (os : Env) (f : file) : M (option error) := λ st,
  match unlock_err os with
  | Some err => Done (Some err) st
  | None => Done None (set_flocked (flocked st ∖ {[f]}) st)
  end.

(** Modelled from the spec: [isUnlocked], which is not part of the sources at
    hand.  Section 4.2, ProbeUnlocked: true iff the file is locked by no
    process; the advisory-lock state after the probe is the one before it. *)
Definition isUnlocked (os : Env) (f : file) : M (bool * option error) := λ st,
  Done (probe_unlocked os, probe_err os) st.

(** ** The daemon *)

Definition lockExt : string := ".lck".

(** [validLockNameRx = regexp.MustCompile(`^[A-Za-z0-9.\-]+$`)] *)
Definition lockNameClass : list (ascii * ascii) :=
  [("A", "Z"); ("a", "z"); ("0", "9"); (".", "."); ("-", "-")]%char.
Definition validLockNameRx : rx.regexp := rx.Plus (rx.Class lockNameClass).
Definition MatchString (r : rx.regexp) (s : string) : bool := rx.fullmatch r s.

Definition shortAcquire (client : conn) (f : file) (fullLock : bool)
  : M (LockCommandResult * string) :=
  (* check if lock was acquired by a different client *)
  by_ ← get (λ st, resourceAcquiredBy st !! f);
  (if fullLock then Unlock else RUnlock);;
  match by_ with
  | None => panic "BUG: missing resource acquired by record"
  | Some by_ =>
      if decide (by_ ≠ client)
      then mret (Failed, "resource acquired through a different session")
      else (* already acquired by self *) mret (Success, "no-op")
  end.

Definition acquire (os : Env) (client : conn) (lockName directory : string)
  : M (LockCommandResult * string) :=
  RLock;;
  f ← get (λ st, knownResources st !! lockName);
  match f with
  | Some f => shortAcquire client f false
  | None =>
  RUnlock;;
  Lock;;
  (* check again, as meanwhile lock could have been created *)
  f ← get (λ st, knownResources st !! lockName);
  match f with
  | Some f => shortAcquire client f true
  | None =>
  r ← OpenFile os (directory +:+ lockName +:+ lockExt) true;
  match r with
  | inr err => Unlock;; mret (InternalError, Error err)
  | inl f =>
  err ← acquireLockDirect os f;
  match err with
  | Some err =>
      Close f;;
      Unlock;;
      if is_contention err
      then mret (Failed, "resource acquired by different process")
      else mret (InternalError, Error err)
  | None =>
  err ← Write os f;
  match err with
  | Some err =>
      Close f;;
      Unlock;;
      mret (InternalError, Error err)
  | None =>
  modify (λ st, set_resourceAcquiredBy (<[f := client]> (resourceAcquiredBy st)) st);;
  modify (λ st, set_knownResources (<[lockName := f]> (knownResources st)) st);;
  Unlock;;
  (* successful lock acquire *)
  mret (Success, "")
  end end end end end.

(** [peek] holds the read lock until it returns ([defer RUnlock]). *)
Definition peek_locked (os : Env) (lockName directory : string)
  : M (LockCommandResult * string * bool) :=
  f ← get (λ st, knownResources st !! lockName);
  match f with
  | Some _ => mret (Success, "", true)
  | None =>
  (* differently from acquire(), file must exist here *)
  r ← OpenFile os (directory +:+ lockName +:+ lockExt) false;
  match r with
  | inr err =>
      if is_not_exist err then mret (Success, "", false)
      else mret (InternalError, Error err, false)
  | inl f =>
  '(unlocked, err) ← isUnlocked os f;
  Close f;;
  match err with
  | Some err => mret (InternalError, Error err, false)
  | None => mret (Success, "", negb unlocked)
  end end end.

Definition peek (os : Env) (lockName directory : string)
  : M (LockCommandResult * string * bool) :=
  RLock;;
  r ← peek_locked os lockName directory;
  RUnlock;;
  mret r.

Definition release (os : Env) (client : conn) (lockName directory : string)
  : M (LockCommandResult * string) :=
  RLock;;
  f ← get (λ st, knownResources st !! lockName);
  match f with
  | None => RUnlock;; mret (Failed, "lock not found")
  | Some f =>
  (* check if lock was acquired by a different client *)
  by_ ← get (λ st, resourceAcquiredBy st !! f);
  match by_ with
  | None => panic "BUG: missing resource acquired by record"
  | Some by_ =>
  if decide (by_ ≠ client)
  then RUnlock;; mret (Failed, "resource acquired through a different session")
  else
  RUnlock;;
  Lock;;
  f ← get (λ st, knownResources st !! lockName);
  match f with
  | None => Unlock;; mret (Failed, "lock not found")
  | Some f =>
  (* check if lock was acquired by a different client *)
  by_ ← get (λ st, resourceAcquiredBy st !! f);
  match by_ with
  | None => panic "BUG: missing resource acquired by record"
  | Some by_ =>
  if decide (by_ ≠ client)
  then Unlock;; mret (Failed, "resource acquired through a different session")
  else
  err ← releaseLock os f;
  match err with
  | Some err => Unlock;; mret (InternalError, Error err)
  | None =>
  modify (λ st, set_knownResources (delete lockName (knownResources st)) st);;
  modify (λ st, set_resourceAcquiredBy (delete f (resourceAcquiredBy st)) st);;
  Close f;;
  err ← Remove os (directory +:+ lockName +:+ lockExt);
  Unlock;;
  match err with
  | Some err => mret (InternalError, Error err)
  | None => mret (Success, "")
  end end end end end end.

(** [verifyOwnership] verifies that the client has acquired the lock through
    this node. *)
Definition verifyOwnership (os : Env) (client : conn) (lockName directory : string)
  : M (LockCommandResult * string) :=
  RLock;;
  f ← get (λ st, knownResources st !! lockName);
  match f with
  | None => RUnlock;; mret (Failed, "lock not found")
  | Some f =>
  (* check if lock was acquired by a different client *)
  by_ ← get (λ st, resourceAcquiredBy st !! f);
  RUnlock;;
  match by_ with
  | None => panic "BUG: missing resource acquired by record"
  | Some by_ =>
  if decide (by_ ≠ client)
  then mret (Failed, "resource acquired through a different session")
  else
  Lock;;
  f ← get (λ st, knownResources st !! lockName);
  match f with
  | None => Unlock;; mret (Failed, "lock not found")
  | Some f =>
  by_ ← get (λ st, resourceAcquiredBy st !! f);
  match by_ with
  | None => panic "BUG: missing resource acquired by record"
  | Some by_ =>
  if decide (by_ ≠ client)
  then Unlock;; mret (Failed, "resource acquired through a different session")
  else
  (* lock was already acquired by self, thus re-acquiring lock must succeed *)
  err ← acquireLockDirect os f;
  Unlock;;
  match err with
  | Some err =>
      if is_contention err
      then mret (Failed, "resource acquired by different process")
      else mret (InternalError, Error err)
  | None => (* successful lock re-acquisition *) mret (Success, "")
  end end end end end.

(** The response under construction: the request with the daemon's own
    version, and the zero values of the other fields. *)
Definition response (req : LockRequest) (result : LockCommandResult) (reason : string)
  (isLocked : bool) : LockResponse :=
  mkLockResponse (mkLockRequest VersionMajor VersionMinor (Command req) (LockName req))
    result reason isLocked.

Definition ProcessRequest (os : Env) (directory : string) (client : conn) (req : LockRequest)
  : M LockResponse :=
  (* validate lock name *)
  if negb (MatchString validLockNameRx (LockName req))
  then mret (response req BadRequest "invalid lock name" false)
  else
  if decide (Command req = Acquire) then
    '(result, reason) ← acquire os client (LockName req) directory;
    mret (response req result reason false)
  else if decide (Command req = Release) then
    '(result, reason) ← release os client (LockName req) directory;
    mret (response req result reason false)
  else if decide (Command req = Peek) then
    '(result, reason, isLocked) ← peek os (LockName req) directory;
    mret (response req result reason isLocked)
  else if decide (Command req = Verify) then
    '(result, reason) ← verifyOwnership os client (LockName req) directory;
    mret (response req result reason false)
  else
    mret (response req BadRequest "unknown command" false).

(** ** Disconnection

    Go leaves the order in which [range] visits a map unspecified.  The two
    loops of [ProcessDisconnect] are therefore written over the sequence of
    pairs an iteration yields, and that sequence is a parameter: any
    enumeration of the map's entries. *)
Section Disconnect.
Context (rangeAcquiredBy : gmap file conn → list (file * conn))
        (rangeResources : gmap string file → list (string * file)).

(** The first loop.  It deletes only the entry it is visiting, so the pairs
    still to come are those of the map as it was when the loop began. *)
Fixpoint dropAcquired (client : conn) (pairs : list (file * conn)) (filesToDrop : list file)
  : M (list file) :=
  match pairs with
  | [] => mret filesToDrop
  | (f, by_) :: pairs =>
      if decide (by_ = client) then
        Close f;;
        modify (λ st, set_resourceAcquiredBy (delete f (resourceAcquiredBy st)) st);;
        dropAcquired client pairs (filesToDrop ++ [f])
      else dropAcquired client pairs filesToDrop
  end.

(** What the first loop appends to [filesToDrop]: the files of the pairs
    owned by [client], in the order of the iteration. *)
Definition dropped (client : conn) (pairs : list (file * conn)) : list file :=
  (filter (λ p : file * conn, p.2 = client) pairs).*1.

(** The inner loop: the first name visited whose file is [droppedF]. *)
Definition findName (pairs : list (string * file)) (droppedF : file) : option string :=
  fst <$> find (λ p, bool_decide (p.2 = droppedF)) pairs.

(** The second loop. *)
Fixpoint dropKnown (filesToDrop : list file) : M unit :=
  match filesToDrop with
  | [] => mret tt
  | droppedF :: filesToDrop =>
      pairs ← get (λ st, rangeResources (knownResources st));
      match findName pairs droppedF with
      | Some name =>
          modify (λ st, set_knownResources (delete name (knownResources st)) st)
      | None => mret tt
      end;;
      dropKnown filesToDrop
  end.

Definition ProcessDisconnect (client : conn) : M unit :=
  Lock;;
  pairs ← get (λ st, rangeAcquiredBy (resourceAcquiredBy st));
  (* perform (inefficient) reverse lookups for deletions *)
  filesToDrop ← dropAcquired client pairs [];
  dropKnown filesToDrop;;
  Unlock.

(** ** Runs of the daemon

    What the session handlers ask of the lock manager, one call at a time. *)
Inductive Event : Type :=
| Request (os : Env) (directory : string) (client : conn) (req : LockRequest)
| Disconnect (client : conn).

Definition handle (ev : Event) : M unit :=
  match ev with
  | Request os directory client req => ProcessRequest os directory client req;; mret tt
  | Disconnect client => ProcessDisconnect client
  end.

Inductive reachable : State → Prop :=
| reach_initial d : reachable (initial d)
| reach_handle st ev st' :
    reachable st → handle ev st = Done tt st' → reachable st'.

End Disconnect.

(** ** Registry entries *)

(** The entry of a lock name: its file and the connection that owns it. *)
Definition entry (st : State) (lockName : string) : option (file * conn) :=
  f ← knownResources st !! lockName;
  by_ ← resourceAcquiredBy st !! f;
  Some (f, by_).

Definition owned_by (st : State) (lockName : string) (client : conn) : Prop :=
  ∃ f, entry st lockName = Some (f, client).

(** Every file of the name index has its record in the owner index. *)
Definition backref (st : State) : Prop :=
  ∀ lockName f, knownResources st !! lockName = Some f →
    is_Some (resourceAcquiredBy st !! f).

(** No file is stored under two names. *)
Definition files_unique (st : State) : Prop :=
  ∀ n1 n2 f, knownResources st !! n1 = Some f → knownResources st !! n2 = Some f → n1 = n2.

(** The same, as a check that can be run on a given state. *)
Definition files_unique_b (st : State) : bool :=
  bool_decide (NoDup (map_to_list (knownResources st)).*2).

(** What holds of the registry between two calls: the two indices agree, no
    file serves two names, and the mutex is free. *)
Definition registry_ok (st : State) : Prop :=
  backref st ∧ files_unique st ∧ knownResourcesLock st = Unlocked.

End core.

(* ===================================================================== *)
(** * Concrete sessions, answers of the system and states *)
(* ===================================================================== *)

Module scenario.
Import api core.

(** Sessions [A] and [B], the lock name [L1], the lock directory. *)
Definition A : conn := 7%positive.
Definition B : conn := 8%positive.
Definition L1 : string := "L1".
Definition dir : string := "/var/lock/".

(** A system on which every call succeeds and nobody else holds a lock. *)
Definition os_ok : Env := mkEnv None None None None None true None.

(** A system on which taking the advisory lock is refused with [e]. *)
Definition os_lock_fails (e : error) : Env := mkEnv None (Some e) None None None true None.

(** A system on which opening a file fails with [e]. *)
Definition os_open_fails (e : error) : Env := mkEnv (Some e) None None None None true None.

(** The daemon just started on an empty directory. *)
Definition fresh_daemon : State := initial ∅.

(** The state in which [A] holds [L1] through the file [1]. *)
Definition held_by_A : State :=
  mkState {[L1 := 1%positive]} {[1%positive := A]} Unlocked
    {["/var/lock/L1.lck"]} {[1%positive := "/var/lock/L1.lck"]} {[1%positive]}.

(** [A] holds [L1], [B] holds ["L2"]. *)
Definition held_by_A_and_B : State :=
  mkState {[L1 := 1%positive; "L2" := 2%positive]} {[1%positive := A; 2%positive := B]} Unlocked
    {["/var/lock/L1.lck"; "/var/lock/L2.lck"]}
    {[1%positive := "/var/lock/L1.lck"; 2%positive := "/var/lock/L2.lck"]}
    {[1%positive; 2%positive]}.

End scenario.

(* ===================================================================== *)
(** * Package api: the names of the enum values *)
(* ===================================================================== *)

Module apiString.
Import api.

(** [func (lc LockCommand) String() string] *)
Definition LockCommand_String (lc : LockCommand) : string :=
  if decide (lc = invalidCommand) then "INVALID_LOCK_COMMAND"
  else if decide (lc = Peek) then "Peek"
  else if decide (lc = Acquire) then "Acquire"
  else if decide (lc = Release) then "Release"
  else if decide (lc = Verify) then "Verify"
  else "UNKNOWN_LOCK_COMMAND(" +:+ pretty lc +:+ ")".

(** [func (lcr LockCommandResult) String() string] *)
Definition LockCommandResult_String (lcr : LockCommandResult) : string :=
  if decide (lcr = invalidResult) then "INVALID_LOCK_COMMAND_RESULT"
  else if decide (lcr = Failed) then "Failed"
  else if decide (lcr = Success) then "Success"
  else if decide (lcr = BadRequest) then "BadRequest"
  else if decide (lcr = InternalError) then "InternalError"
  else "UNKNOWN_LOCK_COMMAND_RESULT(" +:+ pretty lcr +:+ ")".

End apiString.

(* ===================================================================== *)
(** * Package client_test: lock names for the tests *)
(* ===================================================================== *)

Module client_test.

(** [strings.Replace(s, old, new, -1)] for a non-empty [old]: every
    occurrence of [old], leftmost first and without overlap, becomes [new].
    [skip] counts the bytes of an occurrence still to be passed over. *)
Fixpoint replace_from (old new : string) (skip : nat) (s : string) : string :=
  match s with
  | EmptyString => EmptyString
  | String c s' =>
      match skip with
      | S k => replace_from old new k s'
      | O =>
          if String.prefix old s
          then new +:+ replace_from old new (String.length old - 1) s'
          else String c (replace_from old new 0 s')
      end
  end.

Definition Replace (s old new : string) : string := replace_from old new 0 s.

(** [generateLockName]: [name] is the name of the running test or benchmark,
    [r] the value of [rand.Int()], which is not negative. *)
Definition generateLockName (name : string) (r : N) : string :=
  let s := name +:+ "-" +:+ pretty r in
  let s := Replace s "/" "-" in
  Replace s "#" "-".

End client_test.

(* ===================================================================== *)
(** * What the registry owns *)
(* ===================================================================== *)

Module resources.
Import api core.

(** Between two calls the files that are open, the files through which the
    advisory lock is held and the files of the owner index are the same
    files, and each of them is stored under a name. *)
Definition resources_ok (st : State) : Prop :=
  registry_ok st ∧
  (∀ f, is_Some (opened st !! f) ↔ is_Some (resourceAcquiredBy st !! f)) ∧
  (∀ f, f ∈ flocked st ↔ is_Some (resourceAcquiredBy st !! f)) ∧
  (∀ f, is_Some (resourceAcquiredBy st !! f) → ∃ name, knownResources st !! name = Some f).

End resources.

(* ===================================================================== *)
(** * Package ws: the websocket client *)
(* ===================================================================== *)

Module ws.
Import api core.

(** Message types and close code of the websocket library. *)
Definition TextMessage : Z := 1.
Definition BinaryMessage : Z := 2.

(** [type WebsocketClient struct]; [conn] is the pointer [*websocket.Conn],
    [None] for nil; the durations are in nanoseconds. *)
Record WebsocketClient := mkClient {
  endpoint : string;
  keepAlive : Z;
  readTimeout : Z;
  writeTimeout : Z;
  conn : option positive;
  messageType : Z
}.

Definition set_conn (k : option positive) (c : WebsocketClient) : WebsocketClient :=
  mkClient (endpoint c) (keepAlive c) (readTimeout c) (writeTimeout c) k (messageType c).

(** [NewBinary] and [NewJSON]: the struct each of them builds and hands to
    [bclient.New]; no connection is performed. *)
Definition NewBinary (endpoint : string) (keepAlive readTimeout writeTimeout : Z)
  : WebsocketClient :=
  mkClient endpoint keepAlive readTimeout writeTimeout None BinaryMessage.

Definition NewJSON (endpoint : string) (keepAlive readTimeout writeTimeout : Z)
  : WebsocketClient :=
  mkClient endpoint keepAlive readTimeout writeTimeout None TextMessage.

(** What the network and the libraries answer to the calls of one method:
    each [_err] field is the error of one call ([None] for nil). *)
Record Net := mkNet {
  dial_conn : option positive;        (* Dial: the connection returned *)
  dial_err : option error;            (* Dial *)
  underlying_type : string;           (* the dynamic type of UnderlyingConn() *)
  keepalive_err : option error;       (* SetKeepAlive *)
  keepalive_period_err : option error;(* SetKeepAlivePeriod *)
  write_deadline_err : option error;  (* SetWriteDeadline *)
  next_writer_err : option error;     (* NextWriter *)
  encode_err : option error;          (* Encode *)
  read_deadline_err : option error;   (* SetReadDeadline *)
  reader_type : Z;                    (* NextReader: the type of the message *)
  next_reader_err : option error;     (* NextReader *)
  decoded : LockResponse;             (* Decode: the value read *)
  decode_err : option error;          (* Decode *)
  write_message_err : option error;   (* WriteMessage *)
  close_err : option error            (* conn.Close *)
}.

(** A method returns a value and leaves the client struct in some state, or
    the goroutine panics. *)
Inductive run (A : Type) : Type :=
| Ret (a : A) (c : WebsocketClient)
| Crash (msg : string).
Arguments Ret {A} a c.
Arguments Crash {A} msg.

Definition nil_dereference : string :=
  "runtime error: invalid memory address or nil pointer dereference".

(** [AcquireConn]: does nothing if the connection has already been made. *)
Definition AcquireConn (net : Net) (c : WebsocketClient) : run (option error) :=
  match conn c with
  | Some _ => Ret None c
  | None =>
      let c := set_conn (dial_conn net) c in
      match dial_err net with
      | Some err => Ret (Some err) c
      | None =>
          if decide (keepAlive c ≠ 0%Z) then
            match conn c with
            | None => Crash nil_dereference
            | Some _ =>
                if decide (underlying_type net ≠ "*net.TCPConn") then
                  Ret (Some (errorString
                               ("found connection type " +:+ underlying_type net +:+
                                ", but *net.TCPConn expected"))) c
                else
                  (* setup keep-alive *)
                  match keepalive_err net with
                  | Some err => Ret (Some err) c
                  | None =>
                      match keepalive_period_err net with
                      | Some err => Ret (Some err) c
                      | None => Ret None c
                      end
                  end
            end
          else Ret None c
      end
  end.

(** [Do]: one request, one response. *)
Definition Do (net : Net) (c : WebsocketClient) (req : LockRequest)
  : run (option LockResponse * option error) :=
  match conn c with
  | None => Crash nil_dereference
  | Some _ =>
      match (if decide (writeTimeout c ≠ 0%Z) then write_deadline_err net else None) with
      | Some err => Ret (None, Some err) c
      | None =>
      match next_writer_err net with
      | Some err => Ret (None, Some err) c
      | None =>
      match encode_err net with
      | Some err => Ret (None, Some err) c
      | None =>
      (* wait for a response *)
      match (if decide (readTimeout c ≠ 0%Z) then read_deadline_err net else None) with
      | Some err => Ret (None, Some err) c
      | None =>
      match next_reader_err net with
      | Some err => Ret (None, Some err) c
      | None =>
      if decide (reader_type net ≠ messageType c) then
        Ret (None, Some (errorString
                           ("got message type %!s(int=" +:+ pretty (reader_type net) +:+
                            ") but %!s(int=" +:+ pretty (messageType c) +:+ ") expected"))) c
      else
      match decode_err net with
      | Some err => Ret (None, Some err) c
      | None => Ret (Some (decoded net), None) c
      end end end end end end
  end.

(** [Close] *)
Definition Close (net : Net) (c : WebsocketClient) : run (option error) :=
  match conn c with
  | None => Ret None c
  | Some _ =>
      match write_message_err net with
      | Some err => Ret (Some err) c
      | None =>
          match close_err net with
          | Some err => Ret (Some err) c
          | None => Ret None (set_conn None c)
          end
      end
  end.

(** A network on which every call succeeds; [Dial] returns the connection
    [k] over TCP and the peer answers [resp] in a message of type [ty]. *)
Definition net_ok (k : positive) (ty : Z) (resp : LockResponse) : Net :=
  mkNet (Some k) None "*net.TCPConn" None None None None None None ty None resp None None None.

End ws.

Import api core.

(* ===================================================================== *)
(** * The lock-name pattern *)
(* ===================================================================== *)

Section Regexp.
Import rx.

Lemma append_empty_inv (s1 s2 : string) :
  s1 +:+ s2 = EmptyString → s1 = EmptyString ∧ s2 = EmptyString.
Proof. destruct s1; simpl; [tauto | discriminate]. Qed.

Lemma append_cons_inv (s1 s2 : string) c s :
  s1 +:+ s2 = String c s →
  (s1 = EmptyString ∧ s2 = String c s) ∨ (∃ s1', s1 = String c s1' ∧ s = s1' +:+ s2).
Proof.
  destruct s1 as [|c1 s1]; simpl; intros H.
  - left; auto.
  - right. injection H as -> <-. eauto.
Qed.

Lemma nullable_matches r : nullable r = true ↔ matches r EmptyString.
Proof.
  split.
  - induction r; simpl; intros H; try discriminate.
    + constructor.
    + apply andb_true_iff in H as [H1 H2].
      change EmptyString with (EmptyString +:+ EmptyString). constructor; auto.
    + apply orb_true_iff in H as [H|H]; [apply m_alt_l | apply m_alt_r]; auto.
    + constructor.
  - intros H. remember EmptyString as s eqn:Es.
    induction H; simpl; try discriminate; auto.
    + apply append_empty_inv in Es as [-> ->]. rewrite IHmatches1, IHmatches2; auto.
    + rewrite IHmatches; auto.
    + rewrite IHmatches, orb_true_r; auto.
Qed.

Lemma deriv_sound c r : ∀ s, matches (deriv c r) s → matches r (String c s).
Proof.
  induction r; simpl; intros s H.
  - inversion H.
  - inversion H.
  - destruct (in_class ranges c) eqn:E; inversion H; subst. by constructor.
  - destruct (nullable r1) eqn:N.
    + inversion H as [| | | ? ? ? H1 | ? ? ? H2 | |]; subst.
      * inversion H1 as [| |? ? s1 s2 Ha Hb | | | |]; subst.
        change (String c (s1 +:+ s2)) with (String c s1 +:+ s2). constructor; auto.
      * change (String c s) with (EmptyString +:+ String c s).
        constructor; [by apply nullable_matches | auto].
    + inversion H as [| |? ? s1 s2 Ha Hb | | | |]; subst.
      change (String c (s1 +:+ s2)) with (String c s1 +:+ s2). constructor; auto.
  - inversion H; subst; [apply m_alt_l | apply m_alt_r]; auto.
  - inversion H as [| |? ? s1 s2 Ha Hb | | | |]; subst.
    change (String c (s1 +:+ s2)) with (String c s1 +:+ s2). apply m_star_app; auto.
Qed.

Lemma deriv_complete c r t : matches r t → ∀ s, t = String c s → matches (deriv c r) s.
Proof.
  induction 1 as [|ranges c' Hc|r1 r2 s1 s2 H1 IH1 H2 IH2|r1 r2 s' H1 IH1|r1 r2 s' H2 IH2
                 |r|r s1 s2 H1 IH1 H2 IH2]; intros s Es; simpl.
  - discriminate.
  - injection Es as -> <-. rewrite Hc. constructor.
  - apply append_cons_inv in Es as [[-> ->]|(s1' & -> & ->)].
    + apply nullable_matches in H1. rewrite H1. apply m_alt_r. auto.
    + destruct (nullable r1); [apply m_alt_l|]; constructor; auto.
  - apply m_alt_l; auto.
  - apply m_alt_r; auto.
  - discriminate.
  - apply append_cons_inv in Es as [[-> ->]|(s1' & -> & ->)].
    + apply (IH2 s eq_refl).
    + constructor; auto.
Qed.

Lemma fullmatch_matches s : ∀ r, fullmatch r s = true ↔ matches r s.
Proof.
  induction s as [|c s IH]; intros r; simpl.
  - apply nullable_matches.
  - rewrite IH. split; [apply deriv_sound | intros H; by eapply deriv_complete].
Qed.

End Regexp.

Lemma matches_star_class ranges s :
  rx.matches (rx.Star (rx.Class ranges)) s ↔ rx.string_forallb (rx.in_class ranges) s = true.
Proof.
  split.
  - intros H. remember (rx.Star (rx.Class ranges)) as r eqn:Er.
    induction H; try discriminate; [reflexivity|].
    injection Er as ->. inversion H as [|? c Hc| | | | |]; subst. simpl.
    rewrite Hc. apply IHmatches2. reflexivity.
  - induction s as [|c s IH]; simpl; intros H.
    + constructor.
    + apply andb_true_iff in H as [Hc Hs].
      change (String c s) with (String c EmptyString +:+ s).
      apply rx.m_star_app; [by constructor | auto].
Qed.

(** What the pattern accepts: the non-empty strings over letters, digits,
    the dot and the hyphen. *)
Lemma validLockName_spec s :
  MatchString validLockNameRx s = true ↔
  s ≠ EmptyString ∧ rx.string_forallb (rx.in_class lockNameClass) s = true.
Proof.
  unfold MatchString, validLockNameRx, rx.Plus. rewrite fullmatch_matches. split.
  - intros H. inversion H as [| |? ? s1 s2 Ha Hb | | | |]; subst.
    inversion Ha as [|? c Hc| | | | |]; subst.
    change (String c EmptyString +:+ s2) with (String c s2). split; [discriminate|].
    apply matches_star_class in Hb. cbn [rx.string_forallb]. by rewrite Hc, Hb.
  - intros [Hne H]. destruct s as [|c s]; [done|]. cbn [rx.string_forallb] in H.
    apply andb_true_iff in H as [Hc Hs].
    change (String c s) with (String c EmptyString +:+ s).
    constructor; [by constructor | by apply matches_star_class].
Qed.

(* ===================================================================== *)
(** * Running the monad *)
(* ===================================================================== *)

Ltac go_unfold :=
  unfold acquire, release, peek, peek_locked, verifyOwnership, shortAcquire,
    RLock, RUnlock, Lock, Unlock, OpenFile, Close, Write, Remove,
    acquireLockDirect, releaseLock, isUnlocked, get, modify, panic,
    mbind, M_bind, mret, M_ret.

(** Two states with the same six fields are the same state. *)
Lemma State_eq (st st' : State) :
  knownResources st = knownResources st' →
  resourceAcquiredBy st = resourceAcquiredBy st' →
  knownResourcesLock st = knownResourcesLock st' →
  disk st = disk st' →
  opened st = opened st' →
  flocked st = flocked st' →
  st = st'.
Proof. destruct st, st'; simpl; intros; subst; reflexivity. Qed.

(** Closes a goal [Done a st1 = Done a st2] whose states agree field by
    field. *)
Ltac same_state := f_equal; apply State_eq; cbn; auto.

(** Taking the mutex and giving it back leaves the state as it was. *)
Lemma relock_id (mu : RWMutex) (st : State) :
  knownResourcesLock st = Unlocked →
  set_knownResourcesLock Unlocked (set_knownResourcesLock mu st) = st.
Proof. intros H. apply State_eq; simpl; auto. Qed.

Lemma entry_Some st lockName f client :
  entry st lockName = Some (f, client) ↔
  knownResources st !! lockName = Some f ∧ resourceAcquiredBy st !! f = Some client.
Proof.
  unfold entry. destruct (knownResources st !! lockName) as [f'|] eqn:E; simpl.
  - destruct (resourceAcquiredBy st !! f') as [c|] eqn:E'; simpl.
    + split; [intros [= <- <-]; auto | intros [[= <-] Hc]; congruence].
    + split; [discriminate | intros [[= <-] Hc]; congruence].
  - split; [discriminate | intros [? _]; discriminate].
Qed.

Lemma owned_by_iff st lockName client :
  owned_by st lockName client ↔
  ∃ f, knownResources st !! lockName = Some f ∧ resourceAcquiredBy st !! f = Some client.
Proof. unfold owned_by. by setoid_rewrite entry_Some. Qed.

(** The new file of [OpenFile] is none of the files in use. *)
Lemma fresh_live st : fresh (live st) ∉ live st.
Proof. apply is_fresh. Qed.

Lemma fresh_not_known st lockName : knownResources st !! lockName ≠ Some (fresh (live st)).
Proof.
  intros H. apply (fresh_live st). unfold live.
  apply elem_of_union_l, elem_of_union_l, elem_of_union_l. by eapply elem_of_map_img_2.
Qed.

Lemma fresh_not_opened st : opened st !! fresh (live st) = None.
Proof.
  apply not_elem_of_dom. intros H. apply (fresh_live st). unfold live. set_solver.
Qed.

Lemma fresh_not_flocked st : fresh (live st) ∉ flocked st.
Proof. intros H. apply (fresh_live st). unfold live. set_solver. Qed.

(* ===================================================================== *)
(** * Acquire *)
(* ===================================================================== *)

(** Acquire on a name that has an entry: the answer of [shortAcquire], and
    the state is left as it was. *)
Lemma acquire_present os client lockName directory st f by_ :
  knownResourcesLock st = Unlocked →
  knownResources st !! lockName = Some f →
  resourceAcquiredBy st !! f = Some by_ →
  acquire os client lockName directory st =
  Done (if decide (by_ ≠ client)
        then (Failed, "resource acquired through a different session")
        else (Success, "no-op")) st.
Proof.
  intros Hmu Hf Hby. go_unfold. rewrite Hmu. cbn. rewrite Hf. cbn. rewrite Hby.
  rewrite (relock_id _ _ Hmu). by destruct (decide (by_ ≠ client)).
Qed.

(** A successful Acquire leaves an entry owned by the caller. *)
Lemma acquire_success_owned os client lockName directory st reason st' :
  acquire os client lockName directory st = Done (Success, reason) st' →
  owned_by st' lockName client ∧ knownResourcesLock st' = Unlocked.
Proof.
  go_unfold. destruct (knownResourcesLock st) eqn:Hmu; try discriminate. cbn.
  destruct (knownResources st !! lockName) as [f|] eqn:Hf; cbn.
  - destruct (resourceAcquiredBy st !! f) as [by_|] eqn:Hby; try discriminate.
    destruct (decide (by_ ≠ client)) as [|Heq]; cbn; intros [= <- <-]. 
    apply dec_stable in Heq as ->.
    split; [|done]. apply owned_by_iff. exists f. by cbn.
  - rewrite Hf. cbn.
    destruct (open_err os); cbn; try discriminate.
    destruct (lock_err os) as [err|]; cbn.
    { destruct (is_contention err); discriminate. }
    destruct (write_err os); cbn; try discriminate.
    intros [= <- <-]. split; [|done]. apply owned_by_iff. 
    exists (fresh (live st)). cbn. by rewrite !lookup_insert_eq.
Qed.

(** C1. Mutual exclusion across sessions: while the registry holds an entry
    for the name [N] owned by the session [S1] (in particular in the state a
    successful Acquire of [S1] on [N] has just produced), Acquire of [N] by
    any other session [S2] returns Failed with the reason "resource acquired
    through a different session", and the state is left as it was. *)
Theorem acquire_mutual_exclusion os directory st S1 S2 N :
  knownResourcesLock st = Unlocked →
  S1 ≠ S2 →
  (owned_by st N S1 ∨
   ∃ os0 st0 reason, acquire os0 S1 N directory st0 = Done (Success, reason) st) →
  acquire os S2 N directory st =
  Done (Failed, "resource acquired through a different session") st.
Proof.
  intros Hmu Hne Hown.
  assert (owned_by st N S1) as (f & Hf & Hby)%owned_by_iff.
  { destruct Hown as [H|(os0 & st0 & reason & H)]; [done|].
    by apply acquire_success_owned in H as [H _]. }
  rewrite (acquire_present os S2 N directory st f S1 Hmu Hf Hby).
  by rewrite decide_True.
Qed.

Lemma acquire_mutual_exclusion_witness :
  acquire scenario.os_ok scenario.B scenario.L1 scenario.dir scenario.held_by_A =
  Done (Failed, "resource acquired through a different session") scenario.held_by_A.
Proof.
  apply (acquire_mutual_exclusion scenario.os_ok scenario.dir scenario.held_by_A
           scenario.A scenario.B scenario.L1).
  - reflexivity.
  - discriminate.
  - right. exists scenario.os_ok, scenario.fresh_daemon, "". vm_compute. reflexivity.
Defined.

(** C2. Reentrant Acquire is a no-op: when the registry already holds an
    entry for [N] owned by [S], Acquire of [N] by [S] returns Success with the
    reason "no-op" whatever the system would answer to an open, lock or write
    call (none is made), and the whole state, registry and open files
    included, is the state before the call. *)
Theorem acquire_reentrant_noop os directory st S N :
  knownResourcesLock st = Unlocked →
  owned_by st N S →
  acquire os S N directory st = Done (Success, "no-op") st.
Proof.
  intros Hmu (f & Hf & Hby)%owned_by_iff.
  rewrite (acquire_present os S N directory st f S Hmu Hf Hby).
  by rewrite decide_False by (intros H; by apply H).
Qed.

Lemma acquire_reentrant_noop_witness :
  acquire (scenario.os_open_fails (Errno EACCES)) scenario.A scenario.L1 scenario.dir
    scenario.held_by_A = Done (Success, "no-op") scenario.held_by_A.
Proof.
  apply acquire_reentrant_noop.
  - reflexivity.
  - exists 1%positive. vm_compute. reflexivity.
Defined.

(* ===================================================================== *)
(** * Verify *)
(* ===================================================================== *)

(** The result of Verify, case by case. *)
Lemma verifyOwnership_result os client lockName directory st :
  knownResourcesLock st = Unlocked →
  verifyOwnership os client lockName directory st =
  match knownResources st !! lockName with
  | None => Done (Failed, "lock not found") st
  | Some f =>
      match resourceAcquiredBy st !! f with
      | None => Panicked "BUG: missing resource acquired by record"
      | Some by_ =>
          if decide (by_ ≠ client)
          then Done (Failed, "resource acquired through a different session") st
          else match lock_err os with
               | Some err =>
                   Done (if is_contention err
                         then (Failed, "resource acquired by different process")
                         else (InternalError, Error err)) st
               | None => Done (Success, "") (set_flocked ({[f]} ∪ flocked st) st)
               end
      end
  end.
Proof.
  intros Hmu. go_unfold. rewrite Hmu. cbn.
  destruct (knownResources st !! lockName) as [f|] eqn:Hf; cbn.
  2:{ by rewrite (relock_id _ _ Hmu). }
  destruct (resourceAcquiredBy st !! f) as [by_|] eqn:Hby; cbn; [|done].
  destruct (decide (by_ ≠ client)); cbn.
  { by rewrite (relock_id _ _ Hmu). }
  rewrite Hf. cbn. rewrite Hby. destruct (decide (by_ ≠ client)); [done|].
  destruct (lock_err os) as [err|]; cbn.
  - destruct (is_contention err); same_state.
  - same_state.
Qed.

(** C3, as the code has it.  Verify returns Success exactly when the registry
    holds an entry for [N] owned by [S], that is when Acquire would return its
    "no-op" Success, and in addition the advisory lock on the entry's file can
    be taken again. *)
Theorem verify_success_iff os os' directory st S N :
  knownResourcesLock st = Unlocked →
  ((∃ reason st', verifyOwnership os S N directory st = Done (Success, reason) st') ↔
   owned_by st N S ∧ lock_err os = None) ∧
  (owned_by st N S ↔ acquire os' S N directory st = Done (Success, "no-op") st).
Proof.
  intros Hmu. split.
  - rewrite (verifyOwnership_result _ _ _ _ _ Hmu), owned_by_iff. split.
    + intros (reason & st' & H).
      destruct (knownResources st !! N) as [f|]; [|discriminate].
      destruct (resourceAcquiredBy st !! f) as [by_|] eqn:Hby; [|discriminate].
      destruct (decide (by_ ≠ S)) as [|Heq]; [discriminate|].
      apply dec_stable in Heq as ->.
      destruct (lock_err os) as [err|]; [|eauto].
      destruct (is_contention err); discriminate.
    + intros [(f & -> & ->) ->]. rewrite decide_False by (intros H; by apply H). eauto.
  - split.
    + intros (f & Hf & Hby)%owned_by_iff.
      rewrite (acquire_present os' S N directory st f S Hmu Hf Hby).
      by rewrite decide_False by (intros H; by apply H).
    + intros H. by apply acquire_success_owned in H as [H _].
Qed.

Lemma verify_success_iff_witness :
  ((∃ reason st', verifyOwnership scenario.os_ok scenario.A scenario.L1 scenario.dir
                    scenario.held_by_A = Done (Success, reason) st') ↔
   owned_by scenario.held_by_A scenario.L1 scenario.A ∧ lock_err scenario.os_ok = None) ∧
  (owned_by scenario.held_by_A scenario.L1 scenario.A ↔
   acquire scenario.os_ok scenario.A scenario.L1 scenario.dir scenario.held_by_A =
   Done (Success, "no-op") scenario.held_by_A).
Proof. apply verify_success_iff. reflexivity. Defined.

(** C3, as stated, fails: [A] owns the entry of [L1] and Acquire answers with
    its "no-op" Success, but when the system refuses the advisory lock with
    EAGAIN, Verify answers Failed. *)
Lemma verify_not_ownership_alone :
  ¬ ((∃ reason st', verifyOwnership (scenario.os_lock_fails (Errno EAGAIN)) scenario.A
                      scenario.L1 scenario.dir scenario.held_by_A
                    = Done (Success, reason) st') ↔
     owned_by scenario.held_by_A scenario.L1 scenario.A).
Proof.
  intros [_ H].
  destruct H as (reason & st' & H).
  - exists 1%positive. vm_compute. reflexivity.
  - vm_compute in H. discriminate H.
Qed.

(* ===================================================================== *)
(** * Dispatch *)
(* ===================================================================== *)

(** C5, as the code has it.  The command codes are Peek=1, Acquire=2,
    Release=3, Verify=4, and 0 is the uninitialised command.  A request with a
    valid lock name is handed to [peek], [acquire], [release] or
    [verifyOwnership] by these codes, and with any other code, 0 included, it
    is answered BadRequest "unknown command" without a change of state. *)
Theorem command_codes os directory client req st :
  MatchString validLockNameRx (LockName req) = true →
  (invalidCommand = 0 ∧ Peek = 1 ∧ Acquire = 2 ∧ Release = 3 ∧ Verify = 4)%Z ∧
  (Command req = 1%Z →
   ProcessRequest os directory client req st =
   ('(result, reason, isLocked) ← peek os (LockName req) directory;
    mret (response req result reason isLocked)) st) ∧
  (Command req = 2%Z →
   ProcessRequest os directory client req st =
   ('(result, reason) ← acquire os client (LockName req) directory;
    mret (response req result reason false)) st) ∧
  (Command req = 3%Z →
   ProcessRequest os directory client req st =
   ('(result, reason) ← release os client (LockName req) directory;
    mret (response req result reason false)) st) ∧
  (Command req = 4%Z →
   ProcessRequest os directory client req st =
   ('(result, reason) ← verifyOwnership os client (LockName req) directory;
    mret (response req result reason false)) st) ∧
  ((Command req < 1 ∨ 4 < Command req)%Z →
   ProcessRequest os directory client req st =
   Done (response req BadRequest "unknown command" false) st).
Proof.
  intros Hname. unfold ProcessRequest. rewrite Hname. cbn [negb].
  unfold invalidCommand, Peek, Acquire, Release, Verify.
  repeat split; intros H; repeat case_decide; try lia; reflexivity.
Qed.

Lemma command_codes_witness :
  ProcessRequest scenario.os_ok scenario.dir scenario.A (mkLockRequest 0 1 0 scenario.L1)
    scenario.fresh_daemon =
  Done (response (mkLockRequest 0 1 0 scenario.L1) BadRequest "unknown command" false)
    scenario.fresh_daemon.
Proof.
  apply (command_codes scenario.os_ok scenario.dir scenario.A
           (mkLockRequest 0 1 0 scenario.L1) scenario.fresh_daemon).
  - vm_compute. reflexivity.
  - left. vm_compute. reflexivity.
Defined.

(** C5, as stated, fails: the code of Peek is 1, not 2, so a request with a
    valid name and the command 1 is a Peek and is answered Success on a
    daemon that holds nothing, and the command 5 is not Verify but unknown. *)
Lemma command_one_is_peek :
  ¬ ((Peek = 2 ∧ Acquire = 3 ∧ Release = 4 ∧ Verify = 5)%Z ∧
     ∀ c, (c = 0 ∨ c = 1)%Z →
       ∃ resp st', ProcessRequest scenario.os_ok scenario.dir scenario.A
                     (mkLockRequest 0 1 c scenario.L1) scenario.fresh_daemon = Done resp st' ∧
                   Result resp = BadRequest).
Proof.
  intros [_ H].
  destruct (H 1%Z (or_intror eq_refl)) as (resp & st' & Hrun & Hres).
  vm_compute in Hrun. injection Hrun as <- <-. discriminate Hres.
Qed.

(** C6. Lock-name validation comes first and looks at nothing else: a
    request whose lock name does not match the pattern (the empty name is one)
    is answered BadRequest "invalid lock name" for every command code, every
    session and every state, and the state, registry and file system alike,
    is left as it was. *)
Theorem invalid_name_bad_request os directory client req st :
  LockName req = EmptyString ∨ MatchString validLockNameRx (LockName req) = false →
  ProcessRequest os directory client req st =
  Done (response req BadRequest "invalid lock name" false) st.
Proof.
  intros H. assert (MatchString validLockNameRx (LockName req) = false) as Hno.
  { destruct H as [->|H]; [reflexivity | exact H]. }
  unfold ProcessRequest. by rewrite Hno.
Qed.

Lemma invalid_name_bad_request_witness :
  ProcessRequest scenario.os_ok scenario.dir scenario.A
    (mkLockRequest 0 1 Acquire "../etc/passwd") scenario.held_by_A =
  Done (response (mkLockRequest 0 1 Acquire "../etc/passwd") BadRequest "invalid lock name" false)
    scenario.held_by_A.
Proof. apply invalid_name_bad_request. right. vm_compute. reflexivity. Defined.

(* ===================================================================== *)
(** * Acquire on a free name *)
(* ===================================================================== *)

Lemma is_contention_iff err :
  is_contention err = true ↔ err = Errno EAGAIN ∨ err = Errno EACCES.
Proof.
  destruct err as [e| |]; simpl; [|intuition discriminate..].
  rewrite orb_true_iff, !bool_decide_eq_true.
  split; intros [H|H]; [left|right|left|right]; congruence.
Qed.

Lemma difference_twice (X Y : gset positive) : X ∖ Y ∖ Y = X ∖ Y.
Proof. apply set_eq. intros x. rewrite !elem_of_difference. tauto. Qed.

Lemma live_set_lock mu st : live (set_knownResourcesLock mu st) = live st.
Proof. reflexivity. Qed.

(** Closing the file just opened restores the table of open files and the
    set of advisory locks. *)
Lemma close_fresh_opened st path :
  delete (fresh (live st)) (<[fresh (live st) := path]> (opened st)) = opened st.
Proof. apply delete_insert_id, fresh_not_opened. Qed.

Lemma close_fresh_flocked st : flocked st ∖ {[fresh (live st)]} = flocked st.
Proof.
  apply difference_disjoint_L, disjoint_singleton_r, fresh_not_flocked.
Qed.

Lemma close_fresh_locked st : ({[fresh (live st)]} ∪ flocked st) ∖ {[fresh (live st)]} = flocked st.
Proof.
  rewrite difference_union_distr_l_L, difference_diag_L, (left_id_L ∅ (∪)).
  apply close_fresh_flocked.
Qed.

(** Acquire on a name without entry, case by case.  The file is created by
    the open call, whatever comes after. *)
Lemma acquire_absent os client lockName directory st :
  knownResourcesLock st = Unlocked →
  knownResources st !! lockName = None →
  acquire os client lockName directory st =
  let path := directory +:+ lockName +:+ lockExt in
  let f := fresh (live st) in
  match open_err os with
  | Some err => Done (InternalError, Error err) st
  | None =>
      match lock_err os with
      | Some err =>
          Done (if is_contention err
                then (Failed, "resource acquired by different process")
                else (InternalError, Error err))
            (set_disk ({[path]} ∪ disk st) st)
      | None =>
          match write_err os with
          | Some err => Done (InternalError, Error err) (set_disk ({[path]} ∪ disk st) st)
          | None =>
              Done (Success, "")
                (mkState (<[lockName := f]> (knownResources st))
                   (<[f := client]> (resourceAcquiredBy st)) Unlocked
                   ({[path]} ∪ disk st) (<[f := path]> (opened st)) ({[f]} ∪ flocked st))
          end
      end
  end.
Proof.
  intros Hmu Hf. go_unfold. rewrite Hmu. cbn. rewrite Hf. cbn. rewrite Hf. cbn.
  rewrite !live_set_lock.
  destruct (open_err os) as [err|]; cbn; [same_state|].
  destruct (lock_err os) as [err|]; cbn.
  { destruct (is_contention err); same_state;
      auto using close_fresh_opened, close_fresh_flocked. }
  destruct (write_err os) as [err|]; cbn; [|done].
  same_state; auto using close_fresh_opened, close_fresh_locked.
Qed.

(** C8. Acquire on a name that has no entry always returns.  When the
    non-blocking lock attempt fails with EAGAIN or with EACCES it returns
    Failed "resource acquired by different process"; on a failed open, on any
    other failure of the lock attempt and on a failed write it returns
    InternalError with the text of the error.  Whenever the result is not
    Success, the two indices of the registry, the table of open files and the
    set of held advisory locks are what they were before the call (the file
    opened in between has been closed), and the mutex is free. *)
Theorem acquire_failure_atomic os S N directory st :
  knownResourcesLock st = Unlocked →
  knownResources st !! N = None →
  ∃ r st', acquire os S N directory st = Done r st' ∧
    (open_err os = None →
     lock_err os = Some (Errno EAGAIN) ∨ lock_err os = Some (Errno EACCES) →
     r = (Failed, "resource acquired by different process")) ∧
    (∀ err, open_err os = Some err → r = (InternalError, Error err)) ∧
    (∀ err, open_err os = None → lock_err os = Some err →
       err ≠ Errno EAGAIN → err ≠ Errno EACCES → r = (InternalError, Error err)) ∧
    (∀ err, open_err os = None → lock_err os = None → write_err os = Some err →
       r = (InternalError, Error err)) ∧
    (r.1 ≠ Success →
     knownResources st' = knownResources st ∧
     resourceAcquiredBy st' = resourceAcquiredBy st ∧
     opened st' = opened st ∧
     flocked st' = flocked st ∧
     knownResourcesLock st' = Unlocked).
Proof.
  intros Hmu Hf. rewrite (acquire_absent os S N directory st Hmu Hf). cbn zeta.
  destruct (open_err os) as [eo|] eqn:Ho.
  { eexists _, _. split; [reflexivity|]. 
    split; [discriminate|]. split; [congruence|]. split; [discriminate|].
    split; [discriminate|]. auto. }
  destruct (lock_err os) as [el|] eqn:Hl.
  { eexists _, _. split; [reflexivity|].
    split; [|split; [discriminate|split; [|split; [discriminate|auto]]]].
    - intros _ Hc. rewrite (proj2 (is_contention_iff el)); [done|].
      destruct Hc as [[= ->]|[= ->]]; auto.
    - intros err _ [= <-] H1 H2. destruct (is_contention el) eqn:E; [|done].
      apply is_contention_iff in E as [->| ->]; done. }
  destruct (write_err os) as [ew|] eqn:Hw.
  { eexists _, _. split; [reflexivity|].
    split; [by intros _ [|]|]. split; [discriminate|]. split; [discriminate|].
    split; [congruence|]. auto. }
  eexists _, _. split; [reflexivity|].
  split; [by intros _ [|]|]. split; [discriminate|]. split; [discriminate|].
  split; [discriminate|]. cbn. intros H. by destruct H.
Qed.

Lemma acquire_failure_atomic_witness :
  ∃ r st', acquire (scenario.os_lock_fails (Errno EACCES)) scenario.B "L2" scenario.dir
             scenario.held_by_A = Done r st' ∧
           r = (Failed, "resource acquired by different process") ∧
           knownResources st' = knownResources scenario.held_by_A.
Proof.
  destruct (acquire_failure_atomic (scenario.os_lock_fails (Errno EACCES)) scenario.B "L2"
              scenario.dir scenario.held_by_A) as (r & st' & Hrun & Hc & _ & _ & _ & Hst).
  - reflexivity.
  - vm_compute. reflexivity.
  - exists r, st'. split; [exact Hrun|].
    assert (r = (Failed, "resource acquired by different process")) as Hr.
    { apply Hc; [reflexivity | right; reflexivity]. }
    split; [exact Hr|]. apply Hst. rewrite Hr. discriminate.
Defined.

(* ===================================================================== *)
(** * Release *)
(* ===================================================================== *)

(** Release, case by case.  Once the advisory lock is given up the entry is
    deleted from both indices and the file closed, whatever the answer to the
    unlink. *)
Lemma release_result os client lockName directory st :
  knownResourcesLock st = Unlocked →
  release os client lockName directory st =
  let path := directory +:+ lockName +:+ lockExt in
  match knownResources st !! lockName with
  | None => Done (Failed, "lock not found") st
  | Some f =>
      match resourceAcquiredBy st !! f with
      | None => Panicked "BUG: missing resource acquired by record"
      | Some by_ =>
          if decide (by_ ≠ client)
          then Done (Failed, "resource acquired through a different session") st
          else match unlock_err os with
               | Some err => Done (InternalError, Error err) st
               | None =>
                   let st1 :=
                     mkState (delete lockName (knownResources st))
                       (delete f (resourceAcquiredBy st)) Unlocked (disk st)
                       (delete f (opened st)) (flocked st ∖ {[f]}) in
                   match remove_err os with
                   | Some err => Done (InternalError, Error err) st1
                   | None =>
                       if bool_decide (path ∉ disk st)
                       then Done (InternalError,
                                  Error (PathError "remove" path (Errno ENOENT))) st1
                       else Done (Success, "") (set_disk (disk st ∖ {[path]}) st1)
                   end
               end
      end
  end.
Proof.
  intros Hmu. go_unfold. rewrite Hmu. cbn.
  destruct (knownResources st !! lockName) as [f|] eqn:Hf; cbn; [|same_state].
  destruct (resourceAcquiredBy st !! f) as [by_|] eqn:Hby; cbn; [|done].
  destruct (decide (by_ ≠ client)); cbn; [same_state|].
  rewrite Hf. cbn. rewrite Hby. destruct (decide (by_ ≠ client)); [done|]. cbn.
  destruct (unlock_err os) as [err|]; cbn; [same_state|].
  destruct (remove_err os) as [err|]; cbn.
  { same_state. apply difference_twice. }
  destruct (bool_decide (_ ∉ disk st)); cbn; same_state; apply difference_twice.
Qed.

(** C4. Release is final and not idempotent.  On a name without entry it
    returns Failed "lock not found" and changes nothing.  After a Release that
    returned Success the entry is gone from both indices, the lock file no
    longer exists, and a Release that follows at once (whatever the system
    would answer) returns Failed "lock not found". *)
Theorem release_final os os' directory st S N :
  knownResourcesLock st = Unlocked →
  (knownResources st !! N = None →
   release os S N directory st = Done (Failed, "lock not found") st) ∧
  (∀ reason st', release os S N directory st = Done (Success, reason) st' →
     (∃ f, entry st N = Some (f, S) ∧
           knownResources st' = delete N (knownResources st) ∧
           resourceAcquiredBy st' = delete f (resourceAcquiredBy st)) ∧
     entry st' N = None ∧
     ((directory +:+ N +:+ lockExt) ∉ disk st') ∧
     release os' S N directory st' = Done (Failed, "lock not found") st').
Proof.
  intros Hmu. split.
  - intros Hf. rewrite (release_result _ _ _ _ _ Hmu). cbn zeta. by rewrite Hf.
  - intros reason st'. rewrite (release_result _ _ _ _ _ Hmu). cbn zeta.
    destruct (knownResources st !! N) as [f|] eqn:Hf; [|discriminate].
    destruct (resourceAcquiredBy st !! f) as [by_|] eqn:Hby; [|discriminate].
    destruct (decide (by_ ≠ S)) as [|Heq]; [discriminate|].
    apply dec_stable in Heq as ->.
    destruct (unlock_err os); [discriminate|].
    destruct (remove_err os); [discriminate|].
    destruct (bool_decide _); [discriminate|].
    intros [= <- <-]. cbn.
    assert (delete N (knownResources st) !! N = None) as Hgone by apply lookup_delete_eq.
    split; [|split; [|split]].
    + exists f. split; [by apply entry_Some | done].
    + unfold entry. cbn. by rewrite Hgone.
    + rewrite elem_of_difference, elem_of_singleton. tauto.
    + rewrite release_result by done. cbn. by rewrite Hgone.
Qed.

Lemma release_final_witness :
  ∃ st', release scenario.os_ok scenario.A scenario.L1 scenario.dir scenario.held_by_A
         = Done (Success, "") st' ∧
         release scenario.os_ok scenario.A scenario.L1 scenario.dir st'
         = Done (Failed, "lock not found") st' ∧
         release scenario.os_ok scenario.A "L2" scenario.dir scenario.held_by_A
         = Done (Failed, "lock not found") scenario.held_by_A.
Proof.
  destruct (release_final scenario.os_ok scenario.os_ok scenario.dir scenario.held_by_A
              scenario.A scenario.L1) as [_ Hfinal]; [reflexivity|].
  destruct (release_final scenario.os_ok scenario.os_ok scenario.dir scenario.held_by_A
              scenario.A "L2") as [Habsent _]; [reflexivity|].
  eexists. split; [vm_compute; reflexivity|]. split.
  - apply (Hfinal ""). vm_compute. reflexivity.
  - apply Habsent. vm_compute. reflexivity.
Defined.

(* ===================================================================== *)
(** * Peek *)
(* ===================================================================== *)

(** Peek, case by case: the state is never changed. *)
Lemma peek_result os lockName directory st :
  knownResourcesLock st = Unlocked →
  peek os lockName directory st =
  let path := directory +:+ lockName +:+ lockExt in
  Done
    (match knownResources st !! lockName with
     | Some _ => (Success, "", true)
     | None =>
         match open_err os with
         | Some err =>
             if is_not_exist err then (Success, "", false)
             else (InternalError, Error err, false)
         | None =>
             if bool_decide (path ∉ disk st) then (Success, "", false)
             else match probe_err os with
                  | Some err => (InternalError, Error err, false)
                  | None => (Success, "", negb (probe_unlocked os))
                  end
         end
     end) st.
Proof.
  intros Hmu. go_unfold. rewrite Hmu. cbn.
  destruct (knownResources st !! lockName) as [f|] eqn:Hf; cbn; [same_state|].
  rewrite !live_set_lock.
  destruct (open_err os) as [err|]; cbn.
  { destruct (is_not_exist err); same_state. }
  destruct (bool_decide (_ ∉ disk st)); cbn; [same_state|].
  destruct (probe_err os) as [err|]; cbn; same_state;
    auto using close_fresh_opened, close_fresh_flocked.
Qed.

(** C9, as the code has it.  Peek changes nothing: the state after it,
    registry included, is the state before it, so a second Peek gives the
    same answer as the first.  Its result does not depend on the session that
    asks.  It is Success with is-locked set when the name has an entry.  When
    the name has no entry, it is Success with is-locked unset if the open
    reports that the lock file does not exist: either the file is not there
    and nothing else goes wrong, or the open fails with a path error carrying
    ENOENT; and it is InternalError with the text of the error, is-locked
    unset, if the open fails in any other way, whether the file exists or
    not. *)
Theorem peek_pure os directory st N :
  knownResourcesLock st = Unlocked →
  ∃ r,
    peek os N directory st = Done r st ∧
    (peek os N directory;; peek os N directory) st = Done r st ∧
    (∀ c1 c2 vmaj vmin,
       MatchString validLockNameRx N = true →
       ProcessRequest os directory c1 (mkLockRequest vmaj vmin Peek N) st =
       ProcessRequest os directory c2 (mkLockRequest vmaj vmin Peek N) st) ∧
    (is_Some (knownResources st !! N) → r = (Success, "", true)) ∧
    (knownResources st !! N = None → (directory +:+ N +:+ lockExt) ∉ disk st →
     open_err os = None → r = (Success, "", false)) ∧
    (knownResources st !! N = None →
     ∀ op path, open_err os = Some (PathError op path (Errno ENOENT)) →
     r = (Success, "", false)) ∧
    (knownResources st !! N = None →
     ∀ err, open_err os = Some err → is_not_exist err = false →
     r = (InternalError, Error err, false)).
Proof.
  intros Hmu. pose proof (peek_result os N directory st Hmu) as Hp. cbn zeta in Hp.
  eexists. split; [exact Hp|]. split; [|split; [|split; [|split; [|split]]]].
  - unfold mbind, M_bind. rewrite Hp. exact Hp.
  - intros c1 c2 vmaj vmin Hname. unfold ProcessRequest. cbn [LockName Command].
    rewrite Hname. reflexivity.
  - by intros [f ->].
  - intros -> Hno ->. by rewrite bool_decide_eq_true_2.
  - by intros -> op path ->.
  - by intros -> err -> ->.
Qed.

Lemma peek_pure_witness :
  ∃ r, peek scenario.os_ok "L2" scenario.dir scenario.held_by_A = Done r scenario.held_by_A ∧
       r = (Success, "", false).
Proof.
  destruct (peek_pure scenario.os_ok scenario.dir scenario.held_by_A "L2")
    as (r & Hrun & _ & _ & _ & Hfree & _).
  - reflexivity.
  - exists r. split; [exact Hrun|]. apply Hfree; [reflexivity | | reflexivity].
    vm_compute. intros H. discriminate H.
Defined.

(** C9, as stated, fails in its last part: the daemon holds nothing and the
    lock file of [L1] does not exist, but the open fails because the process
    has too many open files (EMFILE), and Peek answers InternalError, not
    Success. *)
Lemma peek_absent_file_open_error :
  ¬ (knownResources scenario.fresh_daemon !! scenario.L1 = None →
     (scenario.dir +:+ scenario.L1 +:+ lockExt) ∉ disk scenario.fresh_daemon →
     ∃ st', peek (scenario.os_open_fails (PathError "open" "/var/lock/L1.lck" (Errno 24)))
              scenario.L1 scenario.dir scenario.fresh_daemon
            = Done (Success, "", false) st').
Proof.
  intros H. destruct H as [st' Hrun].
  - reflexivity.
  - apply not_elem_of_empty.
  - vm_compute in Hrun. discriminate Hrun.
Qed.

(* ===================================================================== *)
(** * Disconnect *)
(* ===================================================================== *)

Section DisconnectProofs.
Context (rangeAcquiredBy : gmap positive positive → list (positive * positive))
        (rangeResources : gmap string positive → list (string * positive))
        (rangeAcquiredBy_perm : ∀ m, rangeAcquiredBy m ≡ₚ map_to_list m)
        (rangeResources_perm : ∀ m, rangeResources m ≡ₚ map_to_list m).

Lemma dropped_cons_True client f pairs :
  dropped client ((f, client) :: pairs) = f :: dropped client pairs.
Proof. unfold dropped. by rewrite filter_cons_True. Qed.

Lemma dropped_cons_False client f by_ pairs :
  by_ ≠ client → dropped client ((f, by_) :: pairs) = dropped client pairs.
Proof. intros H. unfold dropped. by rewrite filter_cons_False. Qed.

Lemma dropAcquired_spec client pairs : ∀ acc st,
  ∃ st', dropAcquired client pairs acc st = Done (acc ++ dropped client pairs) st' ∧
    knownResources st' = knownResources st ∧
    knownResourcesLock st' = knownResourcesLock st ∧
    disk st' = disk st ∧
    (∀ f, f ∈ dropped client pairs →
          resourceAcquiredBy st' !! f = None ∧ opened st' !! f = None ∧ f ∉ flocked st') ∧
    (∀ f, f ∉ dropped client pairs →
          resourceAcquiredBy st' !! f = resourceAcquiredBy st !! f ∧
          opened st' !! f = opened st !! f ∧
          (f ∈ flocked st' ↔ f ∈ flocked st)).
Proof.
  induction pairs as [|[f by_] pairs IH]; intros acc st; cbn [dropAcquired].
  - exists st. change (dropped client []) with (@nil positive). rewrite app_nil_r.
    split; [done|]. split; [done|]. split; [done|]. split; [done|].
    split; [|done]. intros g Hg. by apply not_elem_of_nil in Hg.
  - destruct (decide (by_ = client)) as [->|Hne].
    + go_unfold. cbn beta iota.
      edestruct IH as (st' & -> & HkR & Hmu & Hdisk & Hin & Hout).
      exists st'. rewrite dropped_cons_True, <- app_assoc. split; [done|].
      cbn in HkR, Hmu, Hdisk, Hout.
      split; [done|]. split; [done|]. split; [done|]. split.
      * intros g Hg. destruct (decide (g ∈ dropped client pairs)) as [|Hno]; [by apply Hin|].
        apply elem_of_cons in Hg as [->|]; [|done].
        destruct (Hout f Hno) as (-> & -> & Hfl). rewrite !lookup_delete_eq.
        split; [done|]. split; [done|]. rewrite Hfl, elem_of_difference, elem_of_singleton.
        tauto.
      * intros g Hg. apply not_elem_of_cons in Hg as [Hgf Hg].
        destruct (Hout g Hg) as (-> & -> & Hfl). rewrite !lookup_delete_ne by done.
        split; [done|]. split; [done|]. rewrite Hfl, elem_of_difference, elem_of_singleton.
        tauto.
    + edestruct IH as (st' & -> & H). exists st'.
      rewrite (dropped_cons_False _ _ _ _ Hne). split; [done | exact H].
Qed.

(** A file is dropped exactly when the owner index gives it to [client]. *)
Lemma elem_of_dropped client (m : gmap positive positive) f :
  f ∈ dropped client (rangeAcquiredBy m) ↔ m !! f = Some client.
Proof.
  unfold dropped. rewrite list_elem_of_fmap. split.
  - intros ([f' by_] & -> & [Hby Hin]%list_elem_of_filter). cbn in *. subst.
    rewrite rangeAcquiredBy_perm in Hin. by apply elem_of_map_to_list in Hin.
  - intros H. exists (f, client). split; [done|]. apply list_elem_of_filter. split; [done|].
    rewrite rangeAcquiredBy_perm. by apply elem_of_map_to_list.
Qed.

Lemma findName_Some m droppedF name :
  findName (rangeResources m) droppedF = Some name → m !! name = Some droppedF.
Proof.
  unfold findName. destruct (find _ _) as [[n f]|] eqn:E; [|discriminate].
  intros [= <-]. apply find_some in E as [Hin Hf]. cbn in *.
  apply bool_decide_eq_true in Hf as ->.
  apply list_elem_of_In in Hin. rewrite rangeResources_perm in Hin.
  by apply elem_of_map_to_list in Hin.
Qed.

Lemma findName_None m droppedF name :
  findName (rangeResources m) droppedF = None → m !! name ≠ Some droppedF.
Proof.
  unfold findName. destruct (find _ _) as [[n f]|] eqn:E; [discriminate|].
  intros _ Hm. apply elem_of_map_to_list in Hm. rewrite <- rangeResources_perm in Hm.
  apply list_elem_of_In in Hm. pose proof (find_none _ _ E _ Hm) as H. cbn in H.
  by apply bool_decide_eq_false in H.
Qed.

Lemma files_unique_delete st name :
  files_unique st →
  files_unique (set_knownResources (delete name (knownResources st)) st).
Proof.
  intros Hu n1 n2 f. cbn. rewrite !lookup_delete_Some. intros [_ H1] [_ H2]. eauto.
Qed.

Lemma dropKnown_spec filesToDrop : ∀ st,
  ∃ st', dropKnown rangeResources filesToDrop st = Done tt st' ∧
    resourceAcquiredBy st' = resourceAcquiredBy st ∧
    knownResourcesLock st' = knownResourcesLock st ∧
    disk st' = disk st ∧
    opened st' = opened st ∧
    flocked st' = flocked st ∧
    (∀ name f, knownResources st' !! name = Some f → knownResources st !! name = Some f) ∧
    (∀ name f, knownResources st !! name = Some f → f ∉ filesToDrop →
               knownResources st' !! name = Some f) ∧
    (files_unique st → ∀ name f, knownResources st !! name = Some f → f ∈ filesToDrop →
               knownResources st' !! name = None).
Proof.
  induction filesToDrop as [|d rest IH]; intros st; cbn [dropKnown].
  - exists st. repeat split; try done. intros _ name f _ H. by apply not_elem_of_nil in H.
  - go_unfold. cbn beta iota.
    destruct (findName (rangeResources (knownResources st)) d) as [n|] eqn:E; cbn beta iota.
    + apply findName_Some in E.
      edestruct IH as (st' & -> & HrAB & Hmu & Hdisk & Hop & Hfl & Hsub & Hkeep & Hdrop).
      exists st'. cbn in *. repeat split; try done.
      * intros name f H. apply Hsub in H. by apply lookup_delete_Some in H as [_ H].
      * intros name f H Hnot. apply Hkeep; [|rewrite elem_of_cons in Hnot; tauto].
        apply lookup_delete_Some. split; [|done]. intros <-.
        apply not_elem_of_cons in Hnot as [Hnot _]. apply Hnot. congruence.
      * intros Hu name f H Hin.
        destruct (decide (name = n)) as [->|Hn].
        -- destruct (knownResources st' !! n) as [g|] eqn:Hg; [|done].
           apply Hsub in Hg. by rewrite lookup_delete_eq in Hg.
        -- assert (f ≠ d) as Hfd by (intros ->; by apply Hn, (Hu name n d)).
           apply (Hdrop (files_unique_delete st n Hu) name f).
           ++ by rewrite lookup_delete_ne.
           ++ apply elem_of_cons in Hin as [Hin|Hin]; [done | exact Hin].
    + edestruct IH as (st' & -> & HrAB & Hmu & Hdisk & Hop & Hfl & Hsub & Hkeep & Hdrop).
      exists st'. repeat split; try done.
      * intros name f H Hnot. apply Hkeep; [done|]. rewrite elem_of_cons in Hnot. tauto.
      * intros Hu name f H Hin. apply (Hdrop Hu name f H).
        rewrite elem_of_cons in Hin. destruct Hin as [->|Hin]; [|done].
        by apply (findName_None _ _ name) in E.
Qed.

(** What a disconnection does to the state. *)
Lemma ProcessDisconnect_spec client st :
  knownResourcesLock st = Unlocked →
  ∃ st', ProcessDisconnect rangeAcquiredBy rangeResources client st = Done tt st' ∧
    knownResourcesLock st' = Unlocked ∧
    disk st' = disk st ∧
    (∀ f, resourceAcquiredBy st !! f = Some client →
          resourceAcquiredBy st' !! f = None ∧ opened st' !! f = None ∧ f ∉ flocked st') ∧
    (∀ f, resourceAcquiredBy st !! f ≠ Some client →
          resourceAcquiredBy st' !! f = resourceAcquiredBy st !! f ∧
          opened st' !! f = opened st !! f ∧
          (f ∈ flocked st' ↔ f ∈ flocked st)) ∧
    (∀ name f, knownResources st' !! name = Some f → knownResources st !! name = Some f) ∧
    (∀ name f, knownResources st !! name = Some f →
               resourceAcquiredBy st !! f ≠ Some client →
               knownResources st' !! name = Some f) ∧
    (files_unique st → ∀ name f, knownResources st !! name = Some f →
               resourceAcquiredBy st !! f = Some client →
               knownResources st' !! name = None).
Proof.
  intros Hmu. unfold ProcessDisconnect. go_unfold. rewrite Hmu. cbn beta iota.
  edestruct (dropAcquired_spec client (rangeAcquiredBy (resourceAcquiredBy st)) [])
    as (st1 & -> & HkR1 & Hmu1 & Hdisk1 & Hin1 & Hout1).
  cbn [app]. cbn in HkR1, Hmu1, Hdisk1, Hin1, Hout1.
  edestruct (dropKnown_spec (dropped client (rangeAcquiredBy (resourceAcquiredBy st))) st1)
    as (st2 & -> & HrAB2 & Hmu2 & Hdisk2 & Hop2 & Hfl2 & Hsub & Hkeep & Hdrop).
  rewrite Hmu2, Hmu1. eexists. split; [reflexivity|]. cbn.
  rewrite HrAB2, Hop2, Hfl2, Hdisk2, Hdisk1.
  split; [done|]. split; [done|]. split; [|split; [|split; [|split]]].
  - intros f Hf. apply Hin1. by apply elem_of_dropped.
  - intros f Hf. apply Hout1. by rewrite elem_of_dropped.
  - intros name f H. apply Hsub in H. by rewrite HkR1 in H.
  - intros name f H Hnot. apply Hkeep; [by rewrite HkR1|]. by rewrite elem_of_dropped.
  - intros Hu name f H Hc. apply Hdrop with (f := f).
    + intros n1 n2 g. rewrite HkR1. apply Hu.
    + by rewrite HkR1.
    + by rewrite elem_of_dropped.
Qed.

End DisconnectProofs.

Lemma NoDup_snd_inj {A B} (l : list (A * B)) :
  NoDup (l.*2) → ∀ a1 a2 b, (a1, b) ∈ l → (a2, b) ∈ l → a1 = a2.
Proof.
  induction l as [|[a b0] l IH]; intros Hnd a1 a2 b H1 H2.
  - by apply not_elem_of_nil in H1.
  - cbn in Hnd. apply NoDup_cons in Hnd as [Hnot Hnd].
    assert (∀ a', (a', b0) ∈ l → False) as Hfresh.
    { intros a' Ha. apply Hnot. apply list_elem_of_fmap. by exists (a', b0). }
    apply elem_of_cons in H1 as [E1|H1]; apply elem_of_cons in H2 as [E2|H2].
    + congruence.
    + injection E1 as -> ->. by apply Hfresh in H2.
    + injection E2 as -> ->. by apply Hfresh in H1.
    + by apply (IH Hnd a1 a2 b).
Qed.

Lemma files_unique_b_sound st : files_unique_b st = true → files_unique st.
Proof.
  unfold files_unique_b. intros Hnd%bool_decide_eq_true n1 n2 f H1 H2.
  apply (NoDup_snd_inj _ Hnd n1 n2 f); by apply elem_of_map_to_list.
Qed.

(** C7. OnDisconnect removes exactly the entries of the departing session.
    Whatever order the two map iterations take, on a registry in which no
    file serves two names [ProcessDisconnect] returns, and afterwards: no
    entry is owned by [S]; every entry [S] owned is gone from both indices,
    its file is closed and the advisory lock held through it is given up (the
    daemon calls [Close] alone, ignoring its error, and the lock goes with the
    descriptor); the entries of the other sessions are the same as before,
    their files still open and locked as they were, and no entry has
    appeared; and the files on disk are the same, none is unlinked. *)
Theorem disconnect_frame rangeAcquiredBy rangeResources S st :
  (∀ m, rangeAcquiredBy m ≡ₚ map_to_list m) →
  (∀ m, rangeResources m ≡ₚ map_to_list m) →
  knownResourcesLock st = Unlocked →
  files_unique st →
  ∃ st', ProcessDisconnect rangeAcquiredBy rangeResources S st = Done tt st' ∧
    (∀ N, ¬ owned_by st' N S) ∧
    (∀ N f, entry st N = Some (f, S) →
       knownResources st' !! N = None ∧ resourceAcquiredBy st' !! f = None ∧
       opened st' !! f = None ∧ f ∉ flocked st') ∧
    (∀ N f by_, by_ ≠ S →
       (entry st' N = Some (f, by_) ↔ entry st N = Some (f, by_))) ∧
    (∀ N f by_, by_ ≠ S → entry st N = Some (f, by_) →
       opened st' !! f = opened st !! f ∧ (f ∈ flocked st' ↔ f ∈ flocked st)) ∧
    disk st' = disk st ∧
    knownResourcesLock st' = Unlocked.
Proof.
  intros HpA HpR Hmu Hu.
  destruct (ProcessDisconnect_spec rangeAcquiredBy rangeResources HpA HpR S st Hmu)
    as (st' & Hrun & Hmu' & Hdisk & Hin & Hout & Hsub & Hkeep & Hdrop).
  exists st'. split; [exact Hrun|].
  split; [|split; [|split; [|split; [|split]]]]; try done.
  - intros N (f & Hf & Hby)%owned_by_iff.
    destruct (decide (resourceAcquiredBy st !! f = Some S)) as [Hc|Hc].
    + destruct (Hin f Hc) as [Hnone _]. congruence.
    + destruct (Hout f Hc) as [Heq _]. congruence.
  - intros N f [Hf Hby]%entry_Some. split; [by apply (Hdrop Hu N f)|]. by apply Hin.
  - intros N f by_ Hne. rewrite !entry_Some. split.
    + intros [Hf Hby]. split; [by apply Hsub|].
      destruct (decide (resourceAcquiredBy st !! f = Some S)) as [Hc|Hc].
      * destruct (Hin f Hc) as [Hnone _]. congruence.
      * destruct (Hout f Hc) as [Heq _]. congruence.
    + intros [Hf Hby].
      assert (resourceAcquiredBy st !! f ≠ Some S) as Hc by congruence.
      split; [by apply Hkeep|]. destruct (Hout f Hc) as [Heq _]. congruence.
  - intros N f by_ Hne [Hf Hby]%entry_Some.
    assert (resourceAcquiredBy st !! f ≠ Some S) as Hc by congruence.
    by destruct (Hout f Hc) as (_ & Hop & Hfl).
Qed.

Lemma disconnect_frame_witness :
  ∃ st', ProcessDisconnect map_to_list map_to_list scenario.A scenario.held_by_A_and_B
         = Done tt st' ∧
         entry st' scenario.L1 = None ∧
         entry st' "L2" = Some (2%positive, scenario.B) ∧
         disk st' = disk scenario.held_by_A_and_B.
Proof.
  destruct (disconnect_frame map_to_list map_to_list scenario.A scenario.held_by_A_and_B)
    as (st' & Hrun & Hnone & Hgone & Hother & _ & Hdisk & _).
  - reflexivity.
  - reflexivity.
  - reflexivity.
  - apply files_unique_b_sound. vm_compute. reflexivity.
  - exists st'. split; [exact Hrun|]. split; [|split; [|exact Hdisk]].
    + destruct (Hgone scenario.L1 1%positive) as [Hk _]; [vm_compute; reflexivity|].
      unfold entry. rewrite Hk. reflexivity.
    + apply Hother; [discriminate|]. vm_compute. reflexivity.
Defined.

(* ===================================================================== *)
(** * The registry invariant *)
(* ===================================================================== *)

Lemma registry_ok_initial d : registry_ok (initial d).
Proof.
  split; [|split]; [| |done].
  - intros name f H. cbn in H. by rewrite lookup_empty in H.
  - intros n1 n2 f H. cbn in H. by rewrite lookup_empty in H.
Qed.

(** The invariant looks at the two indices and the mutex only. *)
Lemma registry_ok_ext st st' :
  knownResources st' = knownResources st →
  resourceAcquiredBy st' = resourceAcquiredBy st →
  knownResourcesLock st' = knownResourcesLock st →
  registry_ok st → registry_ok st'.
Proof.
  intros HkR HrAB Hmu (Hb & Hu & Hm). unfold registry_ok, backref, files_unique.
  rewrite HkR, HrAB, Hmu. auto.
Qed.

Lemma registry_ok_acquire os client lockName directory st :
  registry_ok st →
  ∃ r st', acquire os client lockName directory st = Done r st' ∧ registry_ok st'.
Proof.
  intros Hok. pose proof Hok as (Hb & Hu & Hmu).
  destruct (knownResources st !! lockName) as [f|] eqn:Hf.
  - destruct (Hb _ _ Hf) as [by_ Hby].
    rewrite (acquire_present os client lockName directory st f by_ Hmu Hf Hby). eauto.
  - rewrite (acquire_absent os client lockName directory st Hmu Hf). cbn zeta.
    destruct (open_err os); [eauto|].
    destruct (lock_err os).
    { eexists _, _. split; [reflexivity|]. by apply (registry_ok_ext st). }
    destruct (write_err os).
    { eexists _, _. split; [reflexivity|]. by apply (registry_ok_ext st). }
    eexists _, _. split; [reflexivity|]. split; [|split]; [| |done].
    + intros name g. cbn. rewrite lookup_insert_Some. intros [[_ <-]|[_ Hg]].
      * rewrite lookup_insert_eq. eauto.
      * rewrite lookup_insert_ne; [by eapply Hb|].
        intros <-. by apply fresh_not_known in Hg.
    + intros n1 n2 g. cbn. rewrite !lookup_insert_Some.
      intros [[E1 Eg1]|[Hn1 H1]] [[E2 Eg2]|[Hn2 H2]].
      * congruence.
      * exfalso. apply (fresh_not_known st n2). congruence.
      * exfalso. apply (fresh_not_known st n1). congruence.
      * by apply (Hu n1 n2 g).
Qed.

Lemma registry_ok_release os client lockName directory st :
  registry_ok st →
  ∃ r st', release os client lockName directory st = Done r st' ∧ registry_ok st'.
Proof.
  intros Hok. pose proof Hok as (Hb & Hu & Hmu).
  rewrite (release_result os client lockName directory st Hmu). cbn zeta.
  destruct (knownResources st !! lockName) as [f|] eqn:Hf; [|eauto].
  destruct (Hb _ _ Hf) as [by_ Hby]. rewrite Hby.
  destruct (decide (by_ ≠ client)); [eauto|].
  destruct (unlock_err os); [eauto|].
  assert (registry_ok
            (mkState (delete lockName (knownResources st)) (delete f (resourceAcquiredBy st))
               Unlocked (disk st) (delete f (opened st)) (flocked st ∖ {[f]}))) as Hok'.
  { split; [|split]; [| |done].
    - intros name g. cbn. rewrite lookup_delete_Some. intros [Hname Hg].
      rewrite lookup_delete_ne; [by eapply Hb|].
      intros <-. by apply Hname, (Hu lockName name f).
    - intros n1 n2 g. cbn. rewrite !lookup_delete_Some. intros [_ H1] [_ H2].
      by apply (Hu n1 n2 g). }
  destruct (remove_err os); [eauto|].
  destruct (bool_decide _); [eauto|].
  eexists _, _. split; [reflexivity|]. by eapply registry_ok_ext, Hok'.
Qed.

Lemma registry_ok_verifyOwnership os client lockName directory st :
  registry_ok st →
  ∃ r st', verifyOwnership os client lockName directory st = Done r st' ∧ registry_ok st'.
Proof.
  intros Hok. pose proof Hok as (Hb & Hu & Hmu).
  rewrite (verifyOwnership_result os client lockName directory st Hmu).
  destruct (knownResources st !! lockName) as [f|] eqn:Hf; [|eauto].
  destruct (Hb _ _ Hf) as [by_ Hby]. rewrite Hby.
  destruct (decide (by_ ≠ client)); [eauto|].
  destruct (lock_err os); [eauto|].
  eexists _, _. split; [reflexivity|]. by apply (registry_ok_ext st).
Qed.

Lemma registry_ok_peek os lockName directory st :
  registry_ok st →
  ∃ r st', peek os lockName directory st = Done r st' ∧ registry_ok st'.
Proof.
  intros Hok. pose proof Hok as (Hb & Hu & Hmu).
  rewrite (peek_result os lockName directory st Hmu). eauto.
Qed.

Section InvariantProofs.
Context (rangeAcquiredBy : gmap positive positive → list (positive * positive))
        (rangeResources : gmap string positive → list (string * positive))
        (rangeAcquiredBy_perm : ∀ m, rangeAcquiredBy m ≡ₚ map_to_list m)
        (rangeResources_perm : ∀ m, rangeResources m ≡ₚ map_to_list m).

Lemma registry_ok_ProcessDisconnect client st :
  registry_ok st →
  ∃ st', ProcessDisconnect rangeAcquiredBy rangeResources client st = Done tt st' ∧
         registry_ok st'.
Proof.
  intros (Hb & Hu & Hmu).
  destruct (ProcessDisconnect_spec rangeAcquiredBy rangeResources
              rangeAcquiredBy_perm rangeResources_perm client st Hmu)
    as (st' & Hrun & Hmu' & Hdisk & Hin & Hout & Hsub & Hkeep & Hdrop).
  exists st'. split; [exact Hrun|]. split; [|split]; [| |done].
  - intros name f Hf'. pose proof (Hsub _ _ Hf') as Hf.
    destruct (Hb _ _ Hf) as [by_ Hby].
    destruct (decide (by_ = client)) as [->|Hne].
    + rewrite (Hdrop Hu name f Hf Hby) in Hf'. discriminate.
    + destruct (Hout f) as [-> _]; [congruence | eauto].
  - intros n1 n2 f H1 H2. apply (Hu n1 n2 f); by apply Hsub.
Qed.

Lemma registry_ok_ProcessRequest os directory client req st :
  registry_ok st →
  ∃ resp st', ProcessRequest os directory client req st = Done resp st' ∧ registry_ok st'.
Proof.
  intros Hok. unfold ProcessRequest.
  destruct (negb _); [eauto|].
  repeat case_decide; [..|eauto]; unfold mbind, M_bind.
  - destruct (registry_ok_acquire os client (LockName req) directory st Hok)
      as ([result reason] & st' & -> & Hok'). eauto.
  - destruct (registry_ok_release os client (LockName req) directory st Hok)
      as ([result reason] & st' & -> & Hok'). eauto.
  - destruct (registry_ok_peek os (LockName req) directory st Hok)
      as ([[result reason] isLocked] & st' & -> & Hok'). eauto.
  - destruct (registry_ok_verifyOwnership os client (LockName req) directory st Hok)
      as ([result reason] & st' & -> & Hok'). eauto.
Qed.

Lemma registry_ok_handle ev st :
  registry_ok st →
  ∃ st', handle rangeAcquiredBy rangeResources ev st = Done tt st' ∧ registry_ok st'.
Proof.
  intros Hok. destruct ev as [os directory client req|client]; cbn [handle].
  - unfold mbind, M_bind.
    destruct (registry_ok_ProcessRequest os directory client req st Hok)
      as (resp & st' & -> & Hok'). eauto.
  - by apply registry_ok_ProcessDisconnect.
Qed.

Lemma reachable_registry_ok st :
  reachable rangeAcquiredBy rangeResources st → registry_ok st.
Proof.
  induction 1 as [d|st ev st' _ IH Hstep]; [apply registry_ok_initial|].
  destruct (registry_ok_handle ev st IH) as (st'' & Hrun & Hok). congruence.
Qed.

End InvariantProofs.

(** C10. The back-reference invariant and the assertion panics.  In every
    state the daemon can reach from its start, whatever the system answered
    and whatever order the map iterations took, every file stored in the name
    index [knownResources] has its record in the owner index
    [resourceAcquiredBy]; from such a state each of Acquire, Release, Verify,
    Peek and the disconnection returns, so that none of the "BUG: missing
    resource acquired by record" branches is taken, and the invariant holds
    again in the state it leaves. *)
Theorem backref_invariant rangeAcquiredBy rangeResources st :
  (∀ m, rangeAcquiredBy m ≡ₚ map_to_list m) →
  (∀ m, rangeResources m ≡ₚ map_to_list m) →
  reachable rangeAcquiredBy rangeResources st →
  backref st ∧
  (∀ os client N directory,
     ∃ r st', acquire os client N directory st = Done r st' ∧ backref st') ∧
  (∀ os client N directory,
     ∃ r st', release os client N directory st = Done r st' ∧ backref st') ∧
  (∀ os client N directory,
     ∃ r st', verifyOwnership os client N directory st = Done r st' ∧ backref st') ∧
  (∀ os N directory,
     ∃ r st', peek os N directory st = Done r st' ∧ backref st') ∧
  (∀ client,
     ∃ st', ProcessDisconnect rangeAcquiredBy rangeResources client st = Done tt st' ∧
            backref st') ∧
  (∀ ev, ∃ st', handle rangeAcquiredBy rangeResources ev st = Done tt st' ∧
                reachable rangeAcquiredBy rangeResources st').
Proof.
  intros HpA HpR Hreach.
  pose proof (reachable_registry_ok _ _ HpA HpR st Hreach) as Hok.
  split; [apply Hok|]. repeat split.
  - intros os client N directory.
    destruct (registry_ok_acquire os client N directory st Hok) as (r & st' & Hrun & Hb & _).
    eauto.
  - intros os client N directory.
    destruct (registry_ok_release os client N directory st Hok) as (r & st' & Hrun & Hb & _).
    eauto.
  - intros os client N directory.
    destruct (registry_ok_verifyOwnership os client N directory st Hok)
      as (r & st' & Hrun & Hb & _).
    eauto.
  - intros os N directory.
    destruct (registry_ok_peek os N directory st Hok) as (r & st' & Hrun & Hb & _). eauto.
  - intros client.
    destruct (registry_ok_ProcessDisconnect _ _ HpA HpR client st Hok)
      as (st' & Hrun & Hb & _).
    eauto.
  - intros ev.
    destruct (registry_ok_handle _ _ HpA HpR ev st Hok) as (st' & Hrun & _).
    exists st'. split; [exact Hrun|]. by eapply reach_handle.
Qed.

Lemma backref_invariant_witness :
  backref scenario.held_by_A ∧
  ∃ r st', release scenario.os_ok scenario.A scenario.L1 scenario.dir scenario.held_by_A
           = Done r st' ∧ backref st'.
Proof.
  destruct (backref_invariant map_to_list map_to_list scenario.held_by_A)
    as (Hb & _ & Hrel & _).
  - reflexivity.
  - reflexivity.
  - apply (reach_handle _ _ scenario.fresh_daemon
             (Request scenario.os_ok scenario.dir scenario.A
                (mkLockRequest 0 1 Acquire scenario.L1))).
    + apply reach_initial.
    + vm_compute. reflexivity.
  - split; [exact Hb | apply Hrel].
Defined.

(* ===================================================================== *)
(** * More on Acquire and Release *)
(* ===================================================================== *)

Lemma fresh_not_owner st : resourceAcquiredBy st !! fresh (live st) = None.
Proof.
  apply not_elem_of_dom. intros H. apply (fresh_live st). unfold live.
  apply elem_of_union_l, elem_of_union_l, elem_of_union_r, H.
Qed.

(** X1. Acquire on a free name, when the system lets the file be opened,
    locked and written: the answer is Success with an empty reason, the name
    has an entry owned by the caller whose file is open on the lock file's
    path and holds the advisory lock, the lock file exists, and the entry of
    every other name is what it was. *)
Theorem acquire_free_success os S N directory st :
  knownResourcesLock st = Unlocked →
  knownResources st !! N = None →
  open_err os = None → lock_err os = None → write_err os = None →
  ∃ f st', acquire os S N directory st = Done (Success, "") st' ∧
    entry st' N = Some (f, S) ∧
    opened st' !! f = Some (directory +:+ N +:+ lockExt) ∧
    f ∈ flocked st' ∧
    (directory +:+ N +:+ lockExt) ∈ disk st' ∧
    (∀ N', N' ≠ N → entry st' N' = entry st N').
Proof.
  intros Hmu Hf Ho Hl Hw.
  rewrite (acquire_absent os S N directory st Hmu Hf). cbn zeta. rewrite Ho, Hl, Hw.
  eexists _, _. split; [reflexivity|]. cbn.
  split; [|split; [|split; [|split]]].
  - apply entry_Some. cbn. by rewrite !lookup_insert_eq.
  - apply lookup_insert_eq.
  - apply elem_of_union_l, elem_of_singleton. reflexivity.
  - apply elem_of_union_l, elem_of_singleton. reflexivity.
  - intros N' Hne. unfold entry. cbn. rewrite lookup_insert_ne by done.
    destruct (knownResources st !! N') as [g|] eqn:Hg; [|done]. cbn.
    rewrite lookup_insert_ne; [done|]. intros <-. by apply fresh_not_known in Hg.
Qed.

Lemma acquire_free_success_witness :
  ∃ f st', acquire scenario.os_ok scenario.B "L2" scenario.dir scenario.held_by_A
           = Done (Success, "") st' ∧
           entry st' "L2" = Some (f, scenario.B) ∧
           entry st' scenario.L1 = entry scenario.held_by_A scenario.L1.
Proof.
  destruct (acquire_free_success scenario.os_ok scenario.B "L2" scenario.dir
              scenario.held_by_A) as (f & st' & Hrun & He & _ & _ & _ & Hframe);
    try reflexivity.
  exists f, st'. split; [exact Hrun|]. split; [exact He|]. apply Hframe. discriminate.
Defined.

(** X2. Acquire followed by Release by the same session, on a free name and
    a system that refuses nothing, returns Success and leads back to the
    state before the Acquire, except that the lock file is no longer on disk;
    when the file did not exist beforehand the state is exactly the one
    before. *)
Theorem acquire_release_roundtrip os S N directory st :
  knownResourcesLock st = Unlocked →
  knownResources st !! N = None →
  open_err os = None → lock_err os = None → write_err os = None →
  unlock_err os = None → remove_err os = None →
  (acquire os S N directory;; release os S N directory) st =
  Done (Success, "") (set_disk (disk st ∖ {[directory +:+ N +:+ lockExt]}) st) ∧
  ((directory +:+ N +:+ lockExt) ∉ disk st →
   (acquire os S N directory;; release os S N directory) st = Done (Success, "") st).
Proof.
  intros Hmu Hf Ho Hl Hw Hu Hr.
  assert ((acquire os S N directory;; release os S N directory) st =
          Done (Success, "") (set_disk (disk st ∖ {[directory +:+ N +:+ lockExt]}) st)) as Hrun.
  { unfold mbind at 1, M_bind.
    rewrite (acquire_absent os S N directory st Hmu Hf). cbn zeta. rewrite Ho, Hl, Hw.
    rewrite release_result by done. cbn zeta. cbn [knownResources resourceAcquiredBy].
    rewrite !lookup_insert_eq, decide_False by (intros H; by apply H).
    rewrite Hu, Hr, bool_decide_eq_false_2.
    2:{ cbn. intros H. apply H, elem_of_union_l, elem_of_singleton. reflexivity. }
    f_equal. apply State_eq; cbn.
    - by apply delete_insert_id.
    - apply delete_insert_id, fresh_not_owner.
    - done.
    - apply set_eq. intros x. rewrite !elem_of_difference, elem_of_union, elem_of_singleton.
      tauto.
    - apply close_fresh_opened.
    - rewrite ?close_fresh_locked, ?close_fresh_flocked. reflexivity. }
  split; [exact Hrun|]. intros Hno. rewrite Hrun. f_equal. apply State_eq; cbn; try done.
  apply difference_disjoint_L, disjoint_singleton_r, Hno.
Qed.

Lemma acquire_release_roundtrip_witness :
  (acquire scenario.os_ok scenario.A scenario.L1 scenario.dir;;
   release scenario.os_ok scenario.A scenario.L1 scenario.dir) scenario.fresh_daemon
  = Done (Success, "") scenario.fresh_daemon.
Proof.
  apply (proj2 (acquire_release_roundtrip scenario.os_ok scenario.A scenario.L1 scenario.dir
                  scenario.fresh_daemon eq_refl eq_refl eq_refl eq_refl eq_refl eq_refl
                  eq_refl)).
  apply not_elem_of_empty.
Defined.

(** X3. Only the owner can release: Release of a name whose entry belongs to
    another session returns Failed "resource acquired through a different
    session" and leaves the state, entry included, as it was. *)
Theorem release_not_owner os directory st S1 S2 N :
  knownResourcesLock st = Unlocked →
  owned_by st N S1 →
  S2 ≠ S1 →
  release os S2 N directory st =
  Done (Failed, "resource acquired through a different session") st.
Proof.
  intros Hmu (f & Hf & Hby)%owned_by_iff Hne.
  rewrite release_result by done. cbn zeta. rewrite Hf, Hby.
  rewrite decide_True by congruence. reflexivity.
Qed.

Lemma release_not_owner_witness :
  release scenario.os_ok scenario.B scenario.L1 scenario.dir scenario.held_by_A =
  Done (Failed, "resource acquired through a different session") scenario.held_by_A.
Proof.
  apply (release_not_owner scenario.os_ok scenario.dir scenario.held_by_A scenario.A).
  - reflexivity.
  - exists 1%positive. vm_compute. reflexivity.
  - discriminate.
Defined.

(** X4. When the advisory lock cannot be given up, Release by the owner
    returns InternalError with the text of the error and keeps the entry: the
    state is the one before the call, so the session can try again. *)
Theorem release_unlock_error os directory st S N err :
  knownResourcesLock st = Unlocked →
  owned_by st N S →
  unlock_err os = Some err →
  release os S N directory st = Done (InternalError, Error err) st.
Proof.
  intros Hmu (f & Hf & Hby)%owned_by_iff Hu.
  rewrite release_result by done. cbn zeta. rewrite Hf, Hby, Hu.
  rewrite decide_False by (intros H; by apply H). reflexivity.
Qed.

Lemma release_unlock_error_witness :
  release (mkEnv None None None (Some (Errno 5)) None true None) scenario.A scenario.L1
    scenario.dir scenario.held_by_A
  = Done (InternalError, "input/output error") scenario.held_by_A.
Proof.
  apply (release_unlock_error (mkEnv None None None (Some (Errno 5)) None true None)
           scenario.dir scenario.held_by_A scenario.A scenario.L1 (Errno 5)).
  - reflexivity.
  - exists 1%positive. vm_compute. reflexivity.
  - reflexivity.
Defined.

(** X5. When the unlink fails after the advisory lock was given up, Release
    by the owner returns InternalError, and yet the entry is gone from both
    indices, its file is closed and unlocked and the lock file is still on
    disk: the name is free for the next Acquire. *)
Theorem release_unlink_error os directory st S N f err :
  knownResourcesLock st = Unlocked →
  entry st N = Some (f, S) →
  unlock_err os = None →
  (directory +:+ N +:+ lockExt) ∈ disk st →
  remove_err os = Some err →
  ∃ st', release os S N directory st = Done (InternalError, Error err) st' ∧
    knownResources st' = delete N (knownResources st) ∧
    resourceAcquiredBy st' = delete f (resourceAcquiredBy st) ∧
    opened st' !! f = None ∧ (f ∉ flocked st') ∧
    disk st' = disk st ∧
    knownResourcesLock st' = Unlocked.
Proof.
  intros Hmu [Hf Hby]%entry_Some Hu Hd Hr.
  rewrite release_result by done. cbn zeta. rewrite Hf, Hby, Hu, Hr.
  rewrite decide_False by (intros H; by apply H).
  eexists. split; [reflexivity|]. cbn. repeat split.
  - apply lookup_delete_eq.
  - rewrite elem_of_difference, elem_of_singleton. tauto.
Qed.

Lemma release_unlink_error_witness :
  ∃ st', release (mkEnv None None None None (Some (Errno EACCES)) true None) scenario.A
           scenario.L1 scenario.dir scenario.held_by_A
         = Done (InternalError, "permission denied") st' ∧
         knownResources st' = delete scenario.L1 (knownResources scenario.held_by_A).
Proof.
  destruct (release_unlink_error (mkEnv None None None None (Some (Errno EACCES)) true None)
              scenario.dir scenario.held_by_A scenario.A scenario.L1 1%positive
              (Errno EACCES)) as (st' & Hrun & HkR & _).
  - reflexivity.
  - vm_compute. reflexivity.
  - reflexivity.
  - exact (elem_of_singleton_2 (C := gset string) _ _ eq_refl).
  - reflexivity.
  - exists st'. split; [exact Hrun | exact HkR].
Defined.

(** X6. Release touches one name only: on a registry in which no file serves
    two names, whatever Release of [N] returns, the entry of every other name
    is the same after it as before. *)
Theorem release_frame os directory st S N r st' :
  knownResourcesLock st = Unlocked →
  files_unique st →
  release os S N directory st = Done r st' →
  ∀ N', N' ≠ N → entry st' N' = entry st N'.
Proof.
  intros Hmu Huniq Hrun N' Hne. rewrite release_result in Hrun by done. cbn zeta in Hrun.
  destruct (knownResources st !! N) as [f|] eqn:Hf; [|by injection Hrun as _ <-].
  destruct (resourceAcquiredBy st !! f) as [by_|] eqn:Hby; [|discriminate].
  destruct (decide (by_ ≠ S)); [by injection Hrun as _ <-|].
  destruct (unlock_err os); [by injection Hrun as _ <-|].
  assert (∀ d, entry (mkState (delete N (knownResources st)) (delete f (resourceAcquiredBy st))
                        Unlocked d (delete f (opened st)) (flocked st ∖ {[f]})) N'
               = entry st N') as Hentry.
  { intros d. unfold entry. cbn. rewrite lookup_delete_ne by done.
    destruct (knownResources st !! N') as [g|] eqn:Hg; [|done]. cbn.
    rewrite lookup_delete_ne; [done|]. intros <-. by apply Hne, (Huniq N' N f). }
  destruct (remove_err os); [injection Hrun as _ <-; apply Hentry|].
  destruct (bool_decide _); injection Hrun as _ <-; apply Hentry.
Qed.

Lemma release_frame_witness :
  ∃ r st', release scenario.os_ok scenario.A scenario.L1 scenario.dir scenario.held_by_A_and_B
           = Done r st' ∧
           entry st' "L2" = entry scenario.held_by_A_and_B "L2".
Proof.
  eexists _, _. split; [vm_compute; reflexivity|].
  eapply (release_frame scenario.os_ok scenario.dir scenario.held_by_A_and_B scenario.A
            scenario.L1).
  - reflexivity.
  - apply files_unique_b_sound. vm_compute. reflexivity.
  - vm_compute. reflexivity.
  - discriminate.
Defined.

(* ===================================================================== *)
(** * More on Verify and Peek *)
(* ===================================================================== *)

(** X7. The refusals of Verify: on a name without entry it returns Failed
    "lock not found"; on an entry of another session Failed "resource acquired
    through a different session"; for the owner, when the advisory lock is
    refused with EAGAIN or EACCES, Failed "resource acquired by different
    process", and on any other error of the lock call InternalError with its
    text.  In each of these cases the state is the one before the call, and a
    Verify that succeeds changes neither index, nor the open files, nor the
    disk. *)
Theorem verify_refusals os directory st S N :
  knownResourcesLock st = Unlocked →
  (knownResources st !! N = None →
   verifyOwnership os S N directory st = Done (Failed, "lock not found") st) ∧
  (∀ S', owned_by st N S' → S' ≠ S →
   verifyOwnership os S N directory st =
   Done (Failed, "resource acquired through a different session") st) ∧
  (owned_by st N S →
   lock_err os = Some (Errno EAGAIN) ∨ lock_err os = Some (Errno EACCES) →
   verifyOwnership os S N directory st =
   Done (Failed, "resource acquired by different process") st) ∧
  (∀ err, owned_by st N S → lock_err os = Some err →
   err ≠ Errno EAGAIN → err ≠ Errno EACCES →
   verifyOwnership os S N directory st = Done (InternalError, Error err) st) ∧
  (∀ r st', verifyOwnership os S N directory st = Done r st' →
   knownResources st' = knownResources st ∧
   resourceAcquiredBy st' = resourceAcquiredBy st ∧
   opened st' = opened st ∧ disk st' = disk st ∧
   knownResourcesLock st' = Unlocked).
Proof.
  intros Hmu. rewrite (verifyOwnership_result os S N directory st Hmu).
  split; [|split; [|split; [|split]]].
  - by intros ->.
  - intros S' (f & -> & ->)%owned_by_iff Hne. by rewrite decide_True.
  - intros (f & -> & ->)%owned_by_iff Hc.
    rewrite decide_False by (intros H; by apply H).
    destruct Hc as [-> | ->]; reflexivity.
  - intros err (f & -> & ->)%owned_by_iff -> H1 H2.
    rewrite decide_False by (intros H; by apply H).
    destruct (is_contention err) eqn:E; [|done].
    apply is_contention_iff in E as [->| ->]; done.
  - intros r st'.
    destruct (knownResources st !! N) as [f|]; [|by intros [= _ <-]].
    destruct (resourceAcquiredBy st !! f) as [by_|]; [|discriminate].
    destruct (decide (by_ ≠ S)); [by intros [= _ <-]|].
    destruct (lock_err os); by intros [= _ <-].
Qed.

Lemma verify_refusals_witness :
  verifyOwnership scenario.os_ok scenario.B scenario.L1 scenario.dir scenario.held_by_A =
  Done (Failed, "resource acquired through a different session") scenario.held_by_A.
Proof.
  destruct (verify_refusals scenario.os_ok scenario.dir scenario.held_by_A scenario.B
              scenario.L1 eq_refl) as (_ & Hother & _).
  apply (Hother scenario.A).
  - exists 1%positive. vm_compute. reflexivity.
  - discriminate.
Defined.

(** X8. Peek on a name without entry whose lock file exists asks the system:
    when the file opens and the probe works, the answer is Success and
    is-locked is the negation of what the probe found; a failed probe gives
    InternalError with its text; an open that fails with a path error
    carrying ENOENT (the file went away) gives Success and not locked, any
    other open error InternalError with its text.  is-locked is false in all
    the error cases. *)
Theorem peek_probe os directory st N :
  knownResourcesLock st = Unlocked →
  knownResources st !! N = None →
  (directory +:+ N +:+ lockExt) ∈ disk st →
  (open_err os = None → probe_err os = None →
   peek os N directory st = Done (Success, "", negb (probe_unlocked os)) st) ∧
  (∀ err, open_err os = None → probe_err os = Some err →
   peek os N directory st = Done (InternalError, Error err, false) st) ∧
  (∀ op path, open_err os = Some (PathError op path (Errno ENOENT)) →
   peek os N directory st = Done (Success, "", false) st) ∧
  (∀ err, open_err os = Some err → is_not_exist err = false →
   peek os N directory st = Done (InternalError, Error err, false) st).
Proof.
  intros Hmu Hf Hd. rewrite (peek_result os N directory st Hmu). cbn zeta.
  rewrite Hf, bool_decide_eq_false_2 by (intros H; by apply H).
  split; [|split; [|split]].
  - by intros -> ->.
  - by intros err -> ->.
  - by intros op path ->.
  - by intros err -> ->.
Qed.

Lemma peek_probe_witness :
  peek (mkEnv None None None None None false None) "L9" scenario.dir
    (initial {["/var/lock/L9.lck"]})
  = Done (Success, "", true) (initial {["/var/lock/L9.lck"]}).
Proof.
  destruct (peek_probe (mkEnv None None None None None false None) scenario.dir
              (initial {["/var/lock/L9.lck"]}) "L9") as (Hprobe & _).
  - reflexivity.
  - reflexivity.
  - exact (elem_of_singleton_2 (C := gset string) _ _ eq_refl).
  - apply Hprobe; reflexivity.
Defined.

(** X9. A successful Acquire shows in Peek and in Verify: in the state it
    leaves, Peek of the same name by anyone answers Success with is-locked
    set, whatever the system would say; Verify by the acquiring session
    answers Success when the advisory lock can be taken again, and Verify by
    any other session answers Failed "resource acquired through a different
    session". *)
Theorem acquire_then_peek_verify os os' directory st S N reason st' :
  acquire os S N directory st = Done (Success, reason) st' →
  peek os' N directory st' = Done (Success, "", true) st' ∧
  (lock_err os' = None →
   ∃ st'', verifyOwnership os' S N directory st' = Done (Success, "") st'') ∧
  (∀ S', S' ≠ S →
   verifyOwnership os' S' N directory st' =
   Done (Failed, "resource acquired through a different session") st').
Proof.
  intros [(f & Hf & Hby)%owned_by_iff Hmu]%acquire_success_owned.
  rewrite (peek_result os' N directory st' Hmu). cbn zeta. rewrite Hf.
  split; [done|]. split.
  - intros Hl. rewrite (verifyOwnership_result os' S N directory st' Hmu).
    rewrite Hf, Hby, Hl, decide_False by (intros H; by apply H). eauto.
  - intros S' Hne. rewrite (verifyOwnership_result os' S' N directory st' Hmu).
    rewrite Hf, Hby, decide_True by congruence. reflexivity.
Qed.

Lemma acquire_then_peek_verify_witness :
  peek (scenario.os_open_fails (Errno EACCES)) scenario.L1 scenario.dir scenario.held_by_A
  = Done (Success, "", true) scenario.held_by_A.
Proof.
  apply (acquire_then_peek_verify scenario.os_ok (scenario.os_open_fails (Errno EACCES))
           scenario.dir scenario.fresh_daemon scenario.A scenario.L1 "" scenario.held_by_A).
  vm_compute. reflexivity.
Defined.

(* ===================================================================== *)
(** * Responses *)
(* ===================================================================== *)

Lemma mutex_held_panics {A} (m : M A) st :
  knownResourcesLock st ≠ Unlocked → ∀ a st', (RLock;; m) st ≠ Done a st'.
Proof.
  intros Hmu a st'. unfold mbind, M_bind, RLock.
  destruct (knownResourcesLock st); [done | discriminate..].
Qed.

(** Splits on the mutex: a command that finds it held does not return. *)
Ltac mutex_cases st Hmu :=
  let H := fresh "Hrun" in
  destruct (knownResourcesLock st) eqn:Hmu;
  [| intros H; exfalso; revert H;
     apply (mutex_held_panics _ st); rewrite Hmu; discriminate ..].

Lemma acquire_codes os client lockName directory st r reason st' :
  acquire os client lockName directory st = Done (r, reason) st' →
  r = Failed ∨ r = Success ∨ r = InternalError.
Proof.
  mutex_cases st Hmu.
  destruct (knownResources st !! lockName) as [f|] eqn:Hf.
  - destruct (resourceAcquiredBy st !! f) as [by_|] eqn:Hby.
    + rewrite (acquire_present os client lockName directory st f by_ Hmu Hf Hby).
      destruct (decide (by_ ≠ client)); intros [= <- _ _]; auto.
    + go_unfold. rewrite Hmu. cbn. rewrite Hf. cbn. rewrite Hby. discriminate.
  - rewrite (acquire_absent os client lockName directory st Hmu Hf). cbn zeta.
    destruct (open_err os); [intros [= <- _ _]; auto|].
    destruct (lock_err os) as [err|].
    { destruct (is_contention err); intros [= <- _ _]; auto. }
    destruct (write_err os); intros [= <- _ _]; auto.
Qed.

Lemma release_codes os client lockName directory st r reason st' :
  release os client lockName directory st = Done (r, reason) st' →
  r = Failed ∨ r = Success ∨ r = InternalError.
Proof.
  mutex_cases st Hmu.
  rewrite release_result by done. cbn zeta.
  destruct (knownResources st !! lockName) as [f|]; [|intros [= <- _ _]; auto].
  destruct (resourceAcquiredBy st !! f) as [by_|]; [|discriminate].
  destruct (decide (by_ ≠ client)); [intros [= <- _ _]; auto|].
  destruct (unlock_err os); [intros [= <- _ _]; auto|].
  destruct (remove_err os); [intros [= <- _ _]; auto|].
  destruct (bool_decide _); intros [= <- _ _]; auto.
Qed.

Lemma verifyOwnership_codes os client lockName directory st r reason st' :
  verifyOwnership os client lockName directory st = Done (r, reason) st' →
  r = Failed ∨ r = Success ∨ r = InternalError.
Proof.
  mutex_cases st Hmu.
  rewrite verifyOwnership_result by done.
  destruct (knownResources st !! lockName) as [f|]; [|intros [= <- _ _]; auto].
  destruct (resourceAcquiredBy st !! f) as [by_|]; [|discriminate].
  destruct (decide (by_ ≠ client)); [intros [= <- _ _]; auto|].
  destruct (lock_err os) as [err|]; [|intros [= <- _ _]; auto].
  destruct (is_contention err); intros [= <- _ _]; auto.
Qed.

Lemma peek_codes os lockName directory st r reason isLocked st' :
  peek os lockName directory st = Done (r, reason, isLocked) st' →
  (r = Success ∨ r = InternalError) ∧ (isLocked = true → r = Success).
Proof.
  mutex_cases st Hmu.
  rewrite peek_result by done. cbn zeta.
  destruct (knownResources st !! lockName) as [f|]; [intros [= <- _ <- _]; auto|].
  destruct (open_err os) as [err|].
  { destruct (is_not_exist err); intros [= <- _ <- _]; split; auto; discriminate. }
  destruct (bool_decide _); [intros [= <- _ <- _]; auto|].
  destruct (probe_err os); intros [= <- _ <- _]; split; auto; discriminate.
Qed.

(** X10. Every response [ProcessRequest] returns is well formed: it carries
    the daemon's own version 0.1 whatever version the request had, and the
    command and lock name of the request; its result is one of Failed,
    Success, BadRequest, InternalError, never the invalid result 0; is-locked
    is set only in a Success answer to a Peek; and a BadRequest answer leaves
    the state as it was. *)
Theorem response_wellformed os directory client req st resp st' :
  ProcessRequest os directory client req st = Done resp st' →
  api.Request resp = mkLockRequest 0 1 (Command req) (LockName req) ∧
  (Result resp = Failed ∨ Result resp = Success ∨
   Result resp = BadRequest ∨ Result resp = InternalError) ∧
  (IsLocked resp = true → Command req = Peek ∧ Result resp = Success) ∧
  (Result resp = BadRequest → st' = st).
Proof.
  unfold ProcessRequest.
  destruct (negb _).
  { intros [= <- <-]. cbn. repeat split; auto; discriminate. }
  repeat case_decide; unfold mbind, M_bind.
  - destruct (acquire _ _ _ _ _) as [[result reason] st1|] eqn:E; [|discriminate].
    intros [= <- <-]. apply acquire_codes in E. cbn.
    repeat split; try discriminate; destruct E as [->|[->| ->]]; auto; discriminate.
  - destruct (release _ _ _ _ _) as [[result reason] st1|] eqn:E; [|discriminate].
    intros [= <- <-]. apply release_codes in E. cbn.
    repeat split; try discriminate; destruct E as [->|[->| ->]]; auto; discriminate.
  - destruct (peek _ _ _ _) as [[[result reason] isLocked] st1|] eqn:E; [|discriminate].
    intros [= <- <-]. apply peek_codes in E as [E Hl]. cbn.
    repeat split; auto; destruct E as [->| ->]; auto; discriminate.
  - destruct (verifyOwnership _ _ _ _ _) as [[result reason] st1|] eqn:E; [|discriminate].
    intros [= <- <-]. apply verifyOwnership_codes in E. cbn.
    repeat split; try discriminate; destruct E as [->|[->| ->]]; auto; discriminate.
  - intros [= <- <-]. cbn. repeat split; auto; discriminate.
Qed.

Lemma response_wellformed_witness :
  ∃ resp st', ProcessRequest scenario.os_ok scenario.dir scenario.B
                (mkLockRequest 9 9 Peek scenario.L1) scenario.held_by_A = Done resp st' ∧
              api.Request resp = mkLockRequest 0 1 Peek scenario.L1.
Proof.
  eexists _, _. split; [vm_compute; reflexivity|].
  eapply (response_wellformed scenario.os_ok scenario.dir scenario.B
            (mkLockRequest 9 9 Peek scenario.L1) scenario.held_by_A).
  vm_compute. reflexivity.
Defined.

(* ===================================================================== *)
(** * More on disconnection *)
(* ===================================================================== *)

Lemma ProcessDisconnect_noop rangeAcquiredBy rangeResources S st :
  (∀ m, rangeAcquiredBy m ≡ₚ map_to_list m) →
  (∀ m, rangeResources m ≡ₚ map_to_list m) →
  knownResourcesLock st = Unlocked →
  (∀ f, resourceAcquiredBy st !! f ≠ Some S) →
  ProcessDisconnect rangeAcquiredBy rangeResources S st = Done tt st.
Proof.
  intros HpA HpR Hmu Hnone.
  destruct (ProcessDisconnect_spec rangeAcquiredBy rangeResources HpA HpR S st Hmu)
    as (st' & -> & Hmu' & Hdisk & Hin & Hout & Hsub & Hkeep & Hdrop).
  f_equal. apply State_eq; try congruence.
  - apply map_eq. intros name.
    destruct (knownResources st !! name) as [f|] eqn:Hf.
    + by apply Hkeep.
    + destruct (knownResources st' !! name) as [g|] eqn:Hg; [|done].
      apply Hsub in Hg. congruence.
  - apply map_eq. intros f. by destruct (Hout f (Hnone f)) as [-> _].
  - apply map_eq. intros f. by destruct (Hout f (Hnone f)) as (_ & -> & _).
  - apply set_eq. intros f. by destruct (Hout f (Hnone f)) as (_ & _ & ->).
Qed.

(** X11. The disconnection of a session that holds nothing changes nothing:
    whatever order the map iterations take, [ProcessDisconnect] returns with
    the state it started from. *)
Theorem disconnect_without_locks rangeAcquiredBy rangeResources S st :
  (∀ m, rangeAcquiredBy m ≡ₚ map_to_list m) →
  (∀ m, rangeResources m ≡ₚ map_to_list m) →
  knownResourcesLock st = Unlocked →
  (∀ f, resourceAcquiredBy st !! f ≠ Some S) →
  ProcessDisconnect rangeAcquiredBy rangeResources S st = Done tt st.
Proof.
  intros HpA HpR Hmu Hnone.
  destruct (ProcessDisconnect_spec rangeAcquiredBy rangeResources HpA HpR S st Hmu)
    as (st' & -> & Hmu' & Hdisk & _ & Hout & Hsub & Hkeep & _).
  f_equal. apply State_eq; try congruence.
  - apply map_eq. intros name.
    destruct (knownResources st !! name) as [f|] eqn:Hf; [by apply Hkeep|].
    destruct (knownResources st' !! name) as [g|] eqn:Hg; [|done].
    apply Hsub in Hg. congruence.
  - apply map_eq. intros f. by destruct (Hout f (Hnone f)) as [-> _].
  - apply map_eq. intros f. by destruct (Hout f (Hnone f)) as (_ & -> & _).
  - apply set_eq. intros f. by destruct (Hout f (Hnone f)) as (_ & _ & ->).
Qed.

Lemma disconnect_without_locks_witness :
  ProcessDisconnect map_to_list map_to_list scenario.B scenario.held_by_A
  = Done tt scenario.held_by_A.
Proof.
  apply disconnect_without_locks; try reflexivity.
  intros f. unfold scenario.held_by_A. cbn [resourceAcquiredBy].
  rewrite lookup_singleton_Some. intros [_ H]. discriminate H.
Defined.

(** X12. Disconnection is idempotent: after [ProcessDisconnect] of a session
    a second one for the same session, under any iteration orders, returns
    with the state the first one left. *)
Theorem disconnect_idempotent rangeAcquiredBy rangeResources rangeAcquiredBy' rangeResources'
    S st :
  (∀ m, rangeAcquiredBy m ≡ₚ map_to_list m) →
  (∀ m, rangeResources m ≡ₚ map_to_list m) →
  (∀ m, rangeAcquiredBy' m ≡ₚ map_to_list m) →
  (∀ m, rangeResources' m ≡ₚ map_to_list m) →
  knownResourcesLock st = Unlocked →
  ∃ st', ProcessDisconnect rangeAcquiredBy rangeResources S st = Done tt st' ∧
         ProcessDisconnect rangeAcquiredBy' rangeResources' S st' = Done tt st'.
Proof.
  intros HpA HpR HpA' HpR' Hmu.
  destruct (ProcessDisconnect_spec rangeAcquiredBy rangeResources HpA HpR S st Hmu)
    as (st' & Hrun & Hmu' & Hdisk & Hin & Hout & _).
  exists st'. split; [exact Hrun|].
  apply ProcessDisconnect_noop; try done.
  intros f Hf. destruct (decide (resourceAcquiredBy st !! f = Some S)) as [Hc|Hc].
  - destruct (Hin f Hc) as [Hnone _]. congruence.
  - destruct (Hout f Hc) as [Heq _]. congruence.
Qed.

Lemma disconnect_idempotent_witness :
  ∃ st', ProcessDisconnect map_to_list map_to_list scenario.A scenario.held_by_A_and_B
         = Done tt st' ∧
         ProcessDisconnect map_to_list map_to_list scenario.A st' = Done tt st'.
Proof. apply disconnect_idempotent; reflexivity. Defined.

(** X13. After a session has disconnected, the names it held can be acquired
    at once: on a registry in which no file serves two names, when [S1] holds
    [N] and disconnects, an Acquire of [N] by any session on a system that
    refuses nothing returns Success with an empty reason and makes that
    session the owner. *)
Theorem disconnect_then_acquire rangeAcquiredBy rangeResources os directory st S1 S2 N :
  (∀ m, rangeAcquiredBy m ≡ₚ map_to_list m) →
  (∀ m, rangeResources m ≡ₚ map_to_list m) →
  knownResourcesLock st = Unlocked →
  files_unique st →
  owned_by st N S1 →
  open_err os = None → lock_err os = None → write_err os = None →
  ∃ st' st'',
    ProcessDisconnect rangeAcquiredBy rangeResources S1 st = Done tt st' ∧
    acquire os S2 N directory st' = Done (Success, "") st'' ∧
    owned_by st'' N S2.
Proof.
  intros HpA HpR Hmu Hu (f & Hf & Hby)%owned_by_iff Ho Hl Hw.
  destruct (ProcessDisconnect_spec rangeAcquiredBy rangeResources HpA HpR S1 st Hmu)
    as (st' & Hrun & Hmu' & _ & _ & _ & _ & _ & Hdrop).
  pose proof (Hdrop Hu N f Hf Hby) as Hfree.
  pose proof (acquire_absent os S2 N directory st' Hmu' Hfree) as Hacq.
  cbn zeta in Hacq. rewrite Ho, Hl, Hw in Hacq.
  eexists st', _. split; [exact Hrun|]. split; [exact Hacq|].
  exists (fresh (live st')). apply entry_Some. cbn. by rewrite !lookup_insert_eq.
Qed.

Lemma disconnect_then_acquire_witness :
  ∃ st' st'',
    ProcessDisconnect map_to_list map_to_list scenario.A scenario.held_by_A = Done tt st' ∧
    acquire scenario.os_ok scenario.B scenario.L1 scenario.dir st' = Done (Success, "") st'' ∧
    owned_by st'' scenario.L1 scenario.B.
Proof.
  apply (disconnect_then_acquire map_to_list map_to_list scenario.os_ok scenario.dir
           scenario.held_by_A scenario.A scenario.B scenario.L1); try reflexivity.
  - apply files_unique_b_sound. vm_compute. reflexivity.
  - exists 1%positive. vm_compute. reflexivity.
Defined.

(* ===================================================================== *)
(** * The files of the registry *)
(* ===================================================================== *)

Import resources.

Lemma resources_ok_initial d : resources_ok (initial d).
Proof.
  split; [apply registry_ok_initial|]. cbn. split; [|split].
  - intros f. by rewrite !lookup_empty.
  - intros f. rewrite lookup_empty. split; [by intros H%not_elem_of_empty | by intros [? ?]].
  - intros f. rewrite lookup_empty. by intros [? ?].
Qed.

(** The invariant does not look at the disk. *)
Lemma resources_ok_ext st st' :
  knownResources st' = knownResources st →
  resourceAcquiredBy st' = resourceAcquiredBy st →
  knownResourcesLock st' = knownResourcesLock st →
  opened st' = opened st →
  flocked st' = flocked st →
  resources_ok st → resources_ok st'.
Proof.
  intros HkR HrAB Hmu Hop Hfl (Hok & H1 & H2 & H3). unfold resources_ok.
  rewrite HkR, HrAB, Hop, Hfl. split; [by apply (registry_ok_ext st)|]. auto.
Qed.

Lemma resources_ok_acquire os client lockName directory st r st' :
  resources_ok st →
  acquire os client lockName directory st = Done r st' →
  resources_ok st'.
Proof.
  intros Hres Hrun. pose proof Hres as (Hok & Hop & Hfl & Hname).
  destruct (registry_ok_acquire os client lockName directory st Hok) as (r0 & st0 & Hrun0 & Hok').
  assert (st0 = st') as -> by congruence. clear Hrun0.
  pose proof Hok as (Hb & Hu & Hmu).
  destruct (knownResources st !! lockName) as [f|] eqn:Hf.
  - destruct (Hb _ _ Hf) as [by_ Hby].
    rewrite (acquire_present os client lockName directory st f by_ Hmu Hf Hby) in Hrun.
    by injection Hrun as _ <-.
  - rewrite (acquire_absent os client lockName directory st Hmu Hf) in Hrun. cbn zeta in Hrun.
    destruct (open_err os); [by injection Hrun as _ <-|].
    destruct (lock_err os).
    { injection Hrun as _ <-. by apply (resources_ok_ext st). }
    destruct (write_err os).
    { injection Hrun as _ <-. by apply (resources_ok_ext st). }
    split; [exact Hok'|]. injection Hrun as _ <-. cbn. split; [|split].
    + intros g. rewrite !lookup_insert_is_Some. by rewrite Hop.
    + intros g. rewrite elem_of_union, elem_of_singleton, lookup_insert_is_Some, Hfl.
      split.
      * intros [E|H]; [by left|].
        destruct (decide (fresh (live st) = g)); [by left | by right].
      * intros [E|[_ H]]; [by left | by right].
    + intros g [<-|[Hg H]]%lookup_insert_is_Some.
      * exists lockName. apply lookup_insert_eq.
      * destruct (Hname g H) as [name Hn]. exists name.
        rewrite lookup_insert_ne; [done|]. congruence.
Qed.

Lemma resources_ok_release os client lockName directory st r st' :
  resources_ok st →
  release os client lockName directory st = Done r st' →
  resources_ok st'.
Proof.
  intros Hres Hrun. pose proof Hres as (Hok & Hop & Hfl & Hname).
  destruct (registry_ok_release os client lockName directory st Hok) as (r0 & st0 & Hrun0 & Hok').
  assert (st0 = st') as -> by congruence. clear Hrun0.
  pose proof Hok as (Hb & Hu & Hmu).
  rewrite release_result in Hrun by done. cbn zeta in Hrun.
  destruct (knownResources st !! lockName) as [f|] eqn:Hf; [|by injection Hrun as _ <-].
  destruct (resourceAcquiredBy st !! f) as [by_|] eqn:Hby; [|discriminate].
  destruct (decide (by_ ≠ client)); [by injection Hrun as _ <-|].
  destruct (unlock_err os); [by injection Hrun as _ <-|].
  assert (knownResources st' = delete lockName (knownResources st) →
          resourceAcquiredBy st' = delete f (resourceAcquiredBy st) →
          opened st' = delete f (opened st) →
          flocked st' = flocked st ∖ {[f]} → resources_ok st') as Hgoal.
  { intros HkR HrAB Hopen Hflock. split; [exact Hok'|].
    rewrite HkR, HrAB, Hopen, Hflock. split; [|split].
    - intros g. rewrite !lookup_delete_is_Some. by rewrite Hop.
    - intros g. rewrite elem_of_difference, elem_of_singleton, lookup_delete_is_Some, Hfl.
      split; intros [H1 H2]; split; auto.
    - intros g [Hg H]%lookup_delete_is_Some. destruct (Hname g H) as [name Hn].
      exists name. rewrite lookup_delete_ne; [done|]. congruence. }
  destruct (remove_err os); [injection Hrun as _ <-; by apply Hgoal|].
  destruct (bool_decide _); injection Hrun as _ <-; by apply Hgoal.
Qed.

Lemma resources_ok_verifyOwnership os client lockName directory st r st' :
  resources_ok st →
  verifyOwnership os client lockName directory st = Done r st' →
  resources_ok st'.
Proof.
  intros Hres Hrun. pose proof Hres as (Hok & Hop & Hfl & Hname).
  pose proof Hok as (Hb & Hu & Hmu).
  rewrite verifyOwnership_result in Hrun by done.
  destruct (knownResources st !! lockName) as [f|] eqn:Hf; [|by injection Hrun as _ <-].
  destruct (resourceAcquiredBy st !! f) as [by_|] eqn:Hby; [|discriminate].
  destruct (decide (by_ ≠ client)); [by injection Hrun as _ <-|].
  destruct (lock_err os); [by injection Hrun as _ <-|].
  injection Hrun as _ <-. split; [by apply (registry_ok_ext st)|]. cbn.
  split; [done|]. split; [|done].
  intros g. rewrite elem_of_union, elem_of_singleton, Hfl.
  split; [intros [->|H]; eauto | auto].
Qed.

Lemma resources_ok_peek os lockName directory st r st' :
  resources_ok st →
  peek os lockName directory st = Done r st' →
  resources_ok st'.
Proof.
  intros Hres Hrun. pose proof Hres as ((_ & _ & Hmu) & _).
  rewrite peek_result in Hrun by done. by injection Hrun as _ <-.
Qed.

Lemma resources_ok_ProcessRequest os directory client req st resp st' :
  resources_ok st →
  ProcessRequest os directory client req st = Done resp st' →
  resources_ok st'.
Proof.
  intros Hres. unfold ProcessRequest.
  destruct (negb _); [by intros [= _ <-]|].
  repeat case_decide; unfold mbind, M_bind.
  - destruct (acquire _ _ _ _ _) as [[result reason] st1|] eqn:E; [|discriminate].
    intros [= _ <-]. by eapply resources_ok_acquire.
  - destruct (release _ _ _ _ _) as [[result reason] st1|] eqn:E; [|discriminate].
    intros [= _ <-]. by eapply resources_ok_release.
  - destruct (peek _ _ _ _) as [[[result reason] isLocked] st1|] eqn:E; [|discriminate].
    intros [= _ <-]. by eapply resources_ok_peek.
  - destruct (verifyOwnership _ _ _ _ _) as [[result reason] st1|] eqn:E; [|discriminate].
    intros [= _ <-]. by eapply resources_ok_verifyOwnership.
  - by intros [= _ <-].
Qed.

Section ResourceProofs.
Context (rangeAcquiredBy : gmap positive positive → list (positive * positive))
        (rangeResources : gmap string positive → list (string * positive))
        (rangeAcquiredBy_perm : ∀ m, rangeAcquiredBy m ≡ₚ map_to_list m)
        (rangeResources_perm : ∀ m, rangeResources m ≡ₚ map_to_list m).

Lemma resources_ok_ProcessDisconnect client st st' :
  resources_ok st →
  ProcessDisconnect rangeAcquiredBy rangeResources client st = Done tt st' →
  resources_ok st'.
Proof.
  intros (Hok & Hop & Hfl & Hname) Hrun.
  destruct (registry_ok_ProcessDisconnect rangeAcquiredBy rangeResources
              rangeAcquiredBy_perm rangeResources_perm client st Hok) as (st0 & Hrun0 & Hok').
  assert (st0 = st') as -> by congruence. clear Hrun0.
  destruct Hok as (Hb & Hu & Hmu).
  destruct (ProcessDisconnect_spec rangeAcquiredBy rangeResources
              rangeAcquiredBy_perm rangeResources_perm client st Hmu)
    as (st0 & Hrun0 & _ & _ & Hin & Hout & _ & Hkeep & _).
  assert (st0 = st') as -> by congruence. clear Hrun0.
  split; [exact Hok'|]. split; [|split]; intros f.
  - destruct (decide (resourceAcquiredBy st !! f = Some client)) as [Hc|Hc].
    + destruct (Hin f Hc) as (-> & -> & _). done.
    + destruct (Hout f Hc) as (-> & -> & _). apply Hop.
  - destruct (decide (resourceAcquiredBy st !! f = Some client)) as [Hc|Hc].
    + destruct (Hin f Hc) as (-> & _ & Hno). split; [done | by intros [? ?]].
    + destruct (Hout f Hc) as (-> & _ & ->). apply Hfl.
  - destruct (decide (resourceAcquiredBy st !! f = Some client)) as [Hc|Hc].
    + destruct (Hin f Hc) as (-> & _). by intros [? ?].
    + destruct (Hout f Hc) as (-> & _). intros H. destruct (Hname f H) as [name Hn].
      exists name. by apply Hkeep.
Qed.

Lemma reachable_resources_ok st :
  reachable rangeAcquiredBy rangeResources st → resources_ok st.
Proof.
  induction 1 as [d|st ev st' _ IH Hstep]; [apply resources_ok_initial|].
  destruct ev as [os directory client req|client]; cbn [handle] in Hstep.
  - unfold mbind, M_bind in Hstep.
    destruct (ProcessRequest _ _ _ _ _) as [resp st1|] eqn:E; [|discriminate].
    injection Hstep as <-. by eapply resources_ok_ProcessRequest.
  - by eapply resources_ok_ProcessDisconnect.
Qed.

End ResourceProofs.

Lemma resources_ok_entry st f :
  resources_ok st →
  is_Some (resourceAcquiredBy st !! f) ↔ ∃ N S, entry st N = Some (f, S).
Proof.
  intros (_ & _ & _ & Hname). split.
  - intros H. destruct (Hname f H) as [name Hn]. destruct H as [S HS].
    exists name, S. by apply entry_Some.
  - intros (N & S & [_ H]%entry_Some). eauto.
Qed.

(** X14. No file handle leaks and none is lost: in every state the daemon can
    reach, whatever the system answered, a file is open exactly when it is
    the file of a registry entry.  The files opened on the way by Peek and by
    a failed Acquire have all been closed. *)
Theorem reachable_open_files rangeAcquiredBy rangeResources st :
  (∀ m, rangeAcquiredBy m ≡ₚ map_to_list m) →
  (∀ m, rangeResources m ≡ₚ map_to_list m) →
  reachable rangeAcquiredBy rangeResources st →
  ∀ f, is_Some (opened st !! f) ↔ ∃ N S, entry st N = Some (f, S).
Proof.
  intros HpA HpR Hreach f.
  pose proof (reachable_resources_ok _ _ HpA HpR st Hreach) as Hres.
  rewrite <- (resources_ok_entry st f Hres). destruct Hres as (_ & Hop & _). apply Hop.
Qed.

(** X15. The advisory locks follow the registry: in every state the daemon
    can reach, the process holds the advisory lock through a file exactly
    when that file is the file of a registry entry. *)
Theorem reachable_held_locks rangeAcquiredBy rangeResources st :
  (∀ m, rangeAcquiredBy m ≡ₚ map_to_list m) →
  (∀ m, rangeResources m ≡ₚ map_to_list m) →
  reachable rangeAcquiredBy rangeResources st →
  ∀ f, f ∈ flocked st ↔ ∃ N S, entry st N = Some (f, S).
Proof.
  intros HpA HpR Hreach f.
  pose proof (reachable_resources_ok _ _ HpA HpR st Hreach) as Hres.
  rewrite <- (resources_ok_entry st f Hres). destruct Hres as (_ & _ & Hfl & _). apply Hfl.
Qed.

(** X16. The two indices describe one set of entries: in every state the
    daemon can reach, every file of the owner index is stored under exactly
    one lock name, every file of the name index has an owner, and the mutex
    is free. *)
Theorem reachable_one_name_per_file rangeAcquiredBy rangeResources st :
  (∀ m, rangeAcquiredBy m ≡ₚ map_to_list m) →
  (∀ m, rangeResources m ≡ₚ map_to_list m) →
  reachable rangeAcquiredBy rangeResources st →
  (∀ f S, resourceAcquiredBy st !! f = Some S →
     ∃ N, knownResources st !! N = Some f ∧
          ∀ N', knownResources st !! N' = Some f → N' = N) ∧
  (∀ N f, knownResources st !! N = Some f → ∃ S, entry st N = Some (f, S)) ∧
  knownResourcesLock st = Unlocked.
Proof.
  intros HpA HpR Hreach.
  destruct (reachable_resources_ok _ _ HpA HpR st Hreach) as ((Hb & Hu & Hmu) & _ & _ & Hname).
  split; [|split; [|exact Hmu]].
  - intros f S HS. destruct (Hname f (mk_is_Some _ _ HS)) as [N HN].
    exists N. split; [exact HN|]. intros N' HN'. by apply (Hu N' N f).
  - intros N f HN. destruct (Hb N f HN) as [S HS]. exists S. by apply entry_Some.
Qed.

Lemma held_by_A_reachable : reachable map_to_list map_to_list scenario.held_by_A.
Proof.
  apply (reach_handle _ _ scenario.fresh_daemon
           (Request scenario.os_ok scenario.dir scenario.A
              (mkLockRequest 0 1 Acquire scenario.L1))).
  - apply reach_initial.
  - vm_compute. reflexivity.
Qed.

Lemma reachable_open_files_witness :
  is_Some (opened scenario.held_by_A !! 1%positive) ↔
  ∃ N S, entry scenario.held_by_A N = Some (1%positive, S).
Proof.
  apply (reachable_open_files map_to_list map_to_list scenario.held_by_A).
  - reflexivity.
  - reflexivity.
  - apply held_by_A_reachable.
Defined.

Lemma reachable_held_locks_witness :
  1%positive ∈ flocked scenario.held_by_A ↔
  ∃ N S, entry scenario.held_by_A N = Some (1%positive, S).
Proof.
  apply (reachable_held_locks map_to_list map_to_list scenario.held_by_A).
  - reflexivity.
  - reflexivity.
  - apply held_by_A_reachable.
Defined.

Lemma reachable_one_name_per_file_witness :
  knownResourcesLock scenario.held_by_A = Unlocked ∧
  ∀ N f, knownResources scenario.held_by_A !! N = Some f →
         ∃ S, entry scenario.held_by_A N = Some (f, S).
Proof.
  destruct (reachable_one_name_per_file map_to_list map_to_list scenario.held_by_A)
    as (_ & Hentry & Hmu).
  - reflexivity.
  - reflexivity.
  - apply held_by_A_reachable.
  - split; [exact Hmu | exact Hentry].
Defined.

(* ===================================================================== *)
(** * The names of the enum values *)
(* ===================================================================== *)

Import apiString.

Lemma append_char_inj (s1 s2 : string) c :
  s1 +:+ String c EmptyString = s2 +:+ String c EmptyString → s1 = s2.
Proof.
  revert s2. induction s1 as [|a s1 IH]; intros [|b s2]; cbn; intros H.
  - reflexivity.
  - injection H as _ H. destruct s2; discriminate.
  - injection H as _ H. destruct s1; discriminate.
  - injection H as -> H. f_equal. by apply IH.
Qed.

(** X17. [LockCommand.String] tells all command values apart: two values
    with the same name are the same value, whether they are among the five
    declared ones or not. *)
Theorem LockCommand_String_inj (a b : Z) :
  LockCommand_String a = LockCommand_String b → a = b.
Proof.
  unfold LockCommand_String, invalidCommand, Peek, Acquire, Release, Verify.
  repeat case_decide; subst; try reflexivity; try discriminate.
  cbn. intros Heq. injection Heq as Heq. apply append_char_inj in Heq.
  by apply (inj pretty) in Heq.
Qed.

Lemma LockCommand_String_inj_witness : (4 : Z) = Verify.
Proof. apply LockCommand_String_inj. vm_compute. reflexivity. Defined.

(** X18. [LockCommandResult.String] tells all result values apart. *)
Theorem LockCommandResult_String_inj (a b : Z) :
  LockCommandResult_String a = LockCommandResult_String b → a = b.
Proof.
  unfold LockCommandResult_String, invalidResult, Failed, Success, BadRequest, InternalError.
  repeat case_decide; subst; try reflexivity; try discriminate.
  cbn. intros Heq. injection Heq as Heq. apply append_char_inj in Heq.
  by apply (inj pretty) in Heq.
Qed.

Lemma LockCommandResult_String_inj_witness : (3 : Z) = BadRequest.
Proof. apply LockCommandResult_String_inj. vm_compute. reflexivity. Defined.

(* ===================================================================== *)
(** * Lock names of the tests *)
(* ===================================================================== *)

Import client_test.

(** Replacing one byte by another, seen byte by byte. *)
Lemma Replace_byte p a b s :
  rx.string_forallb p (Replace s (String a EmptyString) (String b EmptyString)) =
  rx.string_forallb (λ c, p (if Ascii.eqb a c then b else c)) s.
Proof.
  unfold Replace. induction s as [|c s IH]; [reflexivity|].
  cbn [replace_from String.prefix String.length Nat.sub].
  destruct (ascii_dec a c) as [->|Hne].
  - assert (String.prefix EmptyString s = true) as -> by (by destruct s).
    change (String b EmptyString +:+ ?x) with (String b x).
    cbn [rx.string_forallb]. by rewrite Ascii.eqb_refl, IH.
  - apply Ascii.eqb_neq in Hne. cbn [rx.string_forallb]. by rewrite Hne, IH.
Qed.

Lemma Replace_byte_nonempty a b s :
  Replace s (String a EmptyString) (String b EmptyString) = EmptyString → s = EmptyString.
Proof.
  unfold Replace. destruct s as [|c s]; [done|].
  cbn [replace_from String.prefix String.length Nat.sub].
  destruct (ascii_dec a c); [|discriminate].
  assert (String.prefix EmptyString s = true) as -> by (by destruct s). discriminate.
Qed.

Lemma string_forallb_app p s1 s2 :
  rx.string_forallb p (s1 +:+ s2) = rx.string_forallb p s1 && rx.string_forallb p s2.
Proof.
  induction s1 as [|c s1 IH]; [reflexivity|].
  change (String c s1 +:+ s2) with (String c (s1 +:+ s2)).
  cbn [rx.string_forallb]. by rewrite IH, andb_assoc.
Qed.

Lemma string_forallb_ext p q s :
  (∀ c, p c = q c) → rx.string_forallb p s = rx.string_forallb q s.
Proof. intros H. induction s as [|c s IH]; cbn; [done|]. by rewrite H, IH. Qed.

(** The decimal digits of a number satisfy every predicate that holds of the
    ten digits. *)
Lemma pretty_N_go_forallb p x : ∀ s,
  (∀ d, p (pretty_N_char d) = true) →
  rx.string_forallb p s = true →
  rx.string_forallb p (pretty_N_go x s) = true.
Proof.
  induction (N.lt_wf_0 x) as [x _ IH]. intros s Hp Hs.
  destruct (decide (x = 0%N)) as [->|Hx]; [by rewrite pretty_N_go_0|].
  rewrite pretty_N_go_step by lia. apply IH.
  - apply N.div_lt; lia.
  - exact Hp.
  - cbn [rx.string_forallb]. by rewrite Hp, Hs.
Qed.

Lemma pretty_N_forallb p (x : N) :
  (∀ d, p (pretty_N_char d) = true) → rx.string_forallb p (pretty x) = true.
Proof.
  intros Hp. unfold pretty, pretty_N. case_decide.
  - change (p (pretty_N_char 0%N) && true = true). by rewrite Hp.
  - by apply pretty_N_go_forallb.
Qed.

Lemma digit_in_lockNameClass d : rx.in_class lockNameClass (pretty_N_char d) = true.
Proof. unfold pretty_N_char. by repeat case_match. Qed.

(** X19. A generated lock name contains neither a slash nor a hash sign,
    whatever the name of the test. *)
Theorem generateLockName_no_separator name r :
  rx.string_forallb (λ c, negb (Ascii.eqb c "/") && negb (Ascii.eqb c "#"))
    (generateLockName name r) = true.
Proof.
  unfold generateLockName. cbn zeta. rewrite !Replace_byte.
  rewrite !string_forallb_app. cbn [rx.string_forallb].
  rewrite andb_true_iff. split; [|apply andb_true_iff; split; [reflexivity|]].
  - erewrite string_forallb_ext; [|intros c; reflexivity].
    induction name as [|c name IH]; cbn [rx.string_forallb]; [done|].
    rewrite IH, andb_true_r.
    destruct (Ascii.eqb "/" c) eqn:E1; [reflexivity|].
    destruct (Ascii.eqb "#" c) eqn:E2; [reflexivity|].
    rewrite (Ascii.eqb_sym c "/"), (Ascii.eqb_sym c "#"), E1, E2. reflexivity.
  - apply pretty_N_forallb. intros d. unfold pretty_N_char. by repeat case_match.
Qed.

(** X20. The name [generateLockName] builds is accepted by the daemon's
    lock-name pattern exactly when every byte of the test's name is a letter,
    a digit, a dot, a hyphen, a slash or a hash sign; a test whose name has
    any other byte, an underscore for one, gets a name the daemon rejects. *)
Theorem generateLockName_valid_iff name r :
  MatchString validLockNameRx (generateLockName name r) = true ↔
  rx.string_forallb
    (λ c, rx.in_class lockNameClass c || Ascii.eqb c "/" || Ascii.eqb c "#") name = true.
Proof.
  rewrite validLockName_spec. unfold generateLockName. cbn zeta.
  assert (∀ c, rx.in_class lockNameClass
                 (if Ascii.eqb "#" (if Ascii.eqb "/" c then "-"%char else c)
                  then "-"%char else if Ascii.eqb "/" c then "-"%char else c)
               = rx.in_class lockNameClass c || Ascii.eqb c "/" || Ascii.eqb c "#") as Hmap.
  { intros c. rewrite (Ascii.eqb_sym c "/"), (Ascii.eqb_sym c "#").
    destruct (Ascii.eqb "/" c) eqn:E1.
    - apply Ascii.eqb_eq in E1 as <-. reflexivity.
    - destruct (Ascii.eqb "#" c) eqn:E2.
      + apply Ascii.eqb_eq in E2 as <-. reflexivity.
      + by rewrite !orb_false_r. }
  rewrite !Replace_byte, !string_forallb_app. cbn [rx.string_forallb].
  rewrite (string_forallb_ext _ _ name Hmap).
  assert (rx.string_forallb
            (λ c, rx.in_class lockNameClass
                    (if Ascii.eqb "#" (if Ascii.eqb "/" c then "-"%char else c)
                     then "-"%char else if Ascii.eqb "/" c then "-"%char else c))
            (pretty r) = true) as Hdigits.
  { apply pretty_N_forallb. intros d. unfold pretty_N_char. by repeat case_match. }
  rewrite Hdigits. split.
  - intros [_ H]. apply andb_true_iff in H as [H _]. exact H.
  - intros H. split.
    + intros E. apply Replace_byte_nonempty, Replace_byte_nonempty in E.
      destruct name; discriminate.
    + rewrite H. reflexivity.
Qed.

(* ===================================================================== *)
(** * The websocket client *)
(* ===================================================================== *)

(** [AcquireConn] on a client that has a connection returns nil and leaves the
    client as it is, whatever the network would answer. *)
Lemma AcquireConn_connected_noop net c k :
  ws.conn c = Some k →
  ws.AcquireConn net c = ws.Ret None c.
Proof. intros H. unfold ws.AcquireConn. by rewrite H. Qed.

(** X21. A failed keep-alive setup leaves the client connected.  When a
    client without connection and with a non-zero keep-alive dials with
    success, and then the underlying connection is not a TCP connection or
    one of the two keep-alive calls fails, [AcquireConn] returns an error but
    keeps the new connection in the client: every later [AcquireConn]
    returns nil at once, without keep-alive ever being set. *)
Theorem AcquireConn_keepalive_failure net c k :
  ws.conn c = None →
  ws.keepAlive c ≠ 0%Z →
  ws.dial_err net = None →
  ws.dial_conn net = Some k →
  (ws.underlying_type net ≠ "*net.TCPConn" ∨
   is_Some (ws.keepalive_err net) ∨ is_Some (ws.keepalive_period_err net)) →
  ∃ err, ws.AcquireConn net c = ws.Ret (Some err) (ws.set_conn (Some k) c) ∧
         ∀ net', ws.AcquireConn net' (ws.set_conn (Some k) c)
                 = ws.Ret None (ws.set_conn (Some k) c).
Proof.
  intros Hc Hk Hd Hdc Hfail.
  assert (∃ err, ws.AcquireConn net c = ws.Ret (Some err) (ws.set_conn (Some k) c))
    as [err Herr].
  { unfold ws.AcquireConn. rewrite Hc, Hd, Hdc.
    cbn [ws.conn ws.set_conn ws.keepAlive]. rewrite decide_True by done.
    case_decide as Ht; [eauto|].
    destruct (ws.keepalive_err net) as [e1|]; [eauto|].
    destruct (ws.keepalive_period_err net) as [e2|]; [eauto|].
    destruct Hfail as [Hf|[[? Hf]|[? Hf]]]; [|discriminate..].
    exfalso. apply Hf. by apply dec_stable. }
  exists err. split; [exact Herr|]. intros net'. by apply (AcquireConn_connected_noop _ _ k).
Qed.

Lemma AcquireConn_keepalive_failure_witness :
  ∃ err,
    ws.AcquireConn
      (ws.mkNet (Some 5%positive) None "*tls.Conn" None None None None None None 2 None
         (response (mkLockRequest 0 1 Peek "L1") Success "" false) None None None)
      (ws.NewBinary "wss://host:63519" 3 2 2)
    = ws.Ret (Some err)
        (ws.set_conn (Some 5%positive) (ws.NewBinary "wss://host:63519" 3 2 2)).
Proof.
  destruct (AcquireConn_keepalive_failure
              (ws.mkNet (Some 5%positive) None "*tls.Conn" None None None None None None 2
                 None (response (mkLockRequest 0 1 Peek "L1") Success "" false) None None None)
              (ws.NewBinary "wss://host:63519" 3 2 2) 5%positive) as (err & Hrun & _).
  - reflexivity.
  - discriminate.
  - reflexivity.
  - reflexivity.
  - left. discriminate.
  - exists err. exact Hrun.
Defined.

(** X22. Closing and reconnecting.  [Close] on a client without connection
    returns nil and changes nothing.  When the close message is written and
    the connection closed without error, [Close] returns nil and forgets the
    connection; a second [Close] is then a no-op, and the next [AcquireConn]
    dials again and takes the connection the dial returns. *)
Theorem Close_then_reconnect net net' net'' c :
  (ws.conn c = None → ws.Close net c = ws.Ret None c) ∧
  (is_Some (ws.conn c) → ws.write_message_err net = None → ws.close_err net = None →
   ws.Close net c = ws.Ret None (ws.set_conn None c) ∧
   ws.Close net' (ws.set_conn None c) = ws.Ret None (ws.set_conn None c) ∧
   (ws.dial_err net'' = None → ws.keepAlive c = 0%Z →
    ws.AcquireConn net'' (ws.set_conn None c)
    = ws.Ret None (ws.set_conn (ws.dial_conn net'') c))).
Proof.
  split.
  - intros H. unfold ws.Close. by rewrite H.
  - intros [k Hk] Hw Hc. split; [|split].
    + unfold ws.Close. by rewrite Hk, Hw, Hc.
    + reflexivity.
    + intros Hd Hka. unfold ws.AcquireConn. cbn. rewrite Hd, Hka. reflexivity.
Qed.

Lemma Close_then_reconnect_witness :
  ws.Close (ws.net_ok 5%positive ws.BinaryMessage
              (response (mkLockRequest 0 1 Peek "L1") Success "" false))
    (ws.NewBinary "ws://localhost:63519" 3 2 2)
  = ws.Ret None (ws.NewBinary "ws://localhost:63519" 3 2 2) ∧
  ws.Close (ws.net_ok 5%positive ws.TextMessage
              (response (mkLockRequest 0 1 Peek "L1") Success "" false))
    (ws.set_conn (Some 3%positive) (ws.NewJSON "ws://localhost:63519" 0 2 2))
  = ws.Ret None (ws.NewJSON "ws://localhost:63519" 0 2 2) ∧
  ws.AcquireConn (ws.net_ok 5%positive ws.TextMessage
                    (response (mkLockRequest 0 1 Peek "L1") Success "" false))
    (ws.NewJSON "ws://localhost:63519" 0 2 2)
  = ws.Ret None (ws.set_conn (Some 5%positive) (ws.NewJSON "ws://localhost:63519" 0 2 2)).
Proof.
  split.
  - apply (proj1 (Close_then_reconnect
                    (ws.net_ok 5%positive ws.BinaryMessage
                       (response (mkLockRequest 0 1 Peek "L1") Success "" false))
                    (ws.net_ok 5%positive ws.BinaryMessage
                       (response (mkLockRequest 0 1 Peek "L1") Success "" false))
                    (ws.net_ok 5%positive ws.BinaryMessage
                       (response (mkLockRequest 0 1 Peek "L1") Success "" false))
                    (ws.NewBinary "ws://localhost:63519" 3 2 2))).
    reflexivity.
  - destruct (proj2 (Close_then_reconnect
                       (ws.net_ok 5%positive ws.TextMessage
                          (response (mkLockRequest 0 1 Peek "L1") Success "" false))
                       (ws.net_ok 5%positive ws.TextMessage
                          (response (mkLockRequest 0 1 Peek "L1") Success "" false))
                       (ws.net_ok 5%positive ws.TextMessage
                          (response (mkLockRequest 0 1 Peek "L1") Success "" false))
                       (ws.set_conn (Some 3%positive)
                          (ws.NewJSON "ws://localhost:63519" 0 2 2))))
      as (Hclose & _ & Hdial).
    + eexists. reflexivity.
    + reflexivity.
    + reflexivity.
    + split; [exact Hclose|]. apply Hdial; reflexivity.
Defined.

(** X23. A [Close] that fails keeps the connection: when writing the close
    message fails, or when it is written and closing the connection fails,
    [Close] returns that error and the client still holds the connection, so
    [AcquireConn] will not dial a new one. *)
Theorem Close_failure_keeps_conn net c k :
  ws.conn c = Some k →
  is_Some (ws.write_message_err net) ∨ is_Some (ws.close_err net) →
  ∃ err, ws.Close net c = ws.Ret (Some err) c ∧
         ∀ net', ws.AcquireConn net' c = ws.Ret None c.
Proof.
  intros Hk Hfail.
  assert (∃ err, ws.Close net c = ws.Ret (Some err) c) as [err Herr].
  { unfold ws.Close. rewrite Hk.
    destruct (ws.write_message_err net) as [e1|]; [eauto|].
    destruct (ws.close_err net) as [e2|]; [eauto|].
    destruct Hfail as [[? Hf]|[? Hf]]; discriminate. }
  exists err. split; [exact Herr|]. intros net'. by apply (AcquireConn_connected_noop _ _ k).
Qed.

Lemma Close_failure_keeps_conn_witness :
  ∃ err,
    ws.Close
      (ws.mkNet None None "" None None None None None None 2 None
         (response (mkLockRequest 0 1 Peek "L1") Success "" false) None None
         (Some (errorString "use of closed network connection")))
      (ws.set_conn (Some 3%positive) (ws.NewJSON "ws://localhost:63519" 0 0 0))
    = ws.Ret (Some err) (ws.set_conn (Some 3%positive) (ws.NewJSON "ws://localhost:63519" 0 0 0)).
Proof.
  destruct (Close_failure_keeps_conn
              (ws.mkNet None None "" None None None None None None 2 None
                 (response (mkLockRequest 0 1 Peek "L1") Success "" false) None None
                 (Some (errorString "use of closed network connection")))
              (ws.set_conn (Some 3%positive) (ws.NewJSON "ws://localhost:63519" 0 0 0))
              3%positive) as (err & Hrun & _).
  - reflexivity.
  - right. eexists. reflexivity.
  - exists err. exact Hrun.
Defined.

(** X24. [Do] on a connected client returns either a response and no error
    or an error and no response, never both and never neither, and leaves
    the client as it is.  It returns a response only when the reply has the
    client's own message type, and then the response is the decoded one; a
    reply of the other message type is an error. *)
Theorem Do_response_or_error net c req k :
  ws.conn c = Some k →
  ∃ r, ws.Do net c req = ws.Ret r c ∧
    ((∃ resp, r = (Some resp, None) ∧ resp = ws.decoded net ∧
              ws.reader_type net = ws.messageType c) ∨
     (∃ err, r = (None, Some err))) ∧
    (ws.reader_type net ≠ ws.messageType c → ∃ err, r = (None, Some err)).
Proof.
  intros Hk. unfold ws.Do. rewrite Hk.
  destruct (if decide (ws.writeTimeout c ≠ 0%Z) then ws.write_deadline_err net else None);
    [eexists; split; [reflexivity|]; split; eauto|].
  destruct (ws.next_writer_err net); [eexists; split; [reflexivity|]; split; eauto|].
  destruct (ws.encode_err net); [eexists; split; [reflexivity|]; split; eauto|].
  destruct (if decide (ws.readTimeout c ≠ 0%Z) then ws.read_deadline_err net else None);
    [eexists; split; [reflexivity|]; split; eauto|].
  destruct (ws.next_reader_err net); [eexists; split; [reflexivity|]; split; eauto|].
  destruct (decide (ws.reader_type net ≠ ws.messageType c)) as [Hne|Heq];
    [eexists; split; [reflexivity|]; split; eauto|].
  apply dec_stable in Heq.
  destruct (ws.decode_err net); eexists; (split; [reflexivity|]); split; eauto; done.
Qed.

Lemma Do_response_or_error_witness :
  ∃ r, ws.Do (ws.net_ok 5%positive ws.BinaryMessage
                (response (mkLockRequest 0 1 Peek "L1") Success "" false))
         (ws.set_conn (Some 3%positive) (ws.NewJSON "ws://localhost:63519" 0 0 0))
         (mkLockRequest 0 1 Peek "L1")
       = ws.Ret r (ws.set_conn (Some 3%positive) (ws.NewJSON "ws://localhost:63519" 0 0 0)) ∧
       ∃ err, r = (None, Some err).
Proof.
  destruct (Do_response_or_error
              (ws.net_ok 5%positive ws.BinaryMessage
                 (response (mkLockRequest 0 1 Peek "L1") Success "" false))
              (ws.set_conn (Some 3%positive) (ws.NewJSON "ws://localhost:63519" 0 0 0))
              (mkLockRequest 0 1 Peek "L1") 3%positive) as (r & Hrun & _ & Hmis).
  - reflexivity.
  - exists r. split; [exact Hrun|]. apply Hmis. discriminate.
Defined.

(* ===================================================================== *)
(** * The language of the lock-name pattern *)
(* ===================================================================== *)

Lemma string_forallb_forall p s :
  rx.string_forallb p s = true ↔ ∀ c, In c (list_ascii_of_string s) → p c = true.
Proof.
  induction s as [|a s IH]; cbn [rx.string_forallb list_ascii_of_string In].
  - split; [intros _ c [] | done].
  - rewrite andb_true_iff, IH. split.
    + intros [Ha Hs] c [<-|Hc]; auto.
    + intros H. split; [apply H; by left | intros c Hc; apply H; by right].
Qed.

Lemma in_lockNameClass_iff c :
  rx.in_class lockNameClass c = true ↔
  (65 ≤ nat_of_ascii c ≤ 90 ∨ 97 ≤ nat_of_ascii c ≤ 122 ∨ 48 ≤ nat_of_ascii c ≤ 57 ∨
   nat_of_ascii c = 46 ∨ nat_of_ascii c = 45)%nat.
Proof.
  unfold rx.in_class, lockNameClass. cbn [existsb]. unfold rx.in_range. cbn [fst snd].
  change (nat_of_ascii "A") with 65%nat. change (nat_of_ascii "Z") with 90%nat.
  change (nat_of_ascii "a") with 97%nat. change (nat_of_ascii "z") with 122%nat.
  change (nat_of_ascii "0") with 48%nat. change (nat_of_ascii "9") with 57%nat.
  change (nat_of_ascii ".") with 46%nat. change (nat_of_ascii "-") with 45%nat.
  rewrite !orb_true_iff, !andb_true_iff, !Nat.leb_le. lia.
Qed.

(** X25. What [validLockNameRx] accepts: a string matches the pattern exactly
    when it is not empty and each of its bytes is an ASCII letter (65-90,
    97-122), a digit (48-57), the dot (46) or the hyphen (45).  A name with a
    slash, a space, an underscore, a NUL or a byte above 127 does not
    match. *)
Theorem lock_name_pattern s :
  MatchString validLockNameRx s = true ↔
  s ≠ EmptyString ∧
  ∀ c, In c (list_ascii_of_string s) →
    (65 ≤ nat_of_ascii c ≤ 90 ∨ 97 ≤ nat_of_ascii c ≤ 122 ∨ 48 ≤ nat_of_ascii c ≤ 57 ∨
     nat_of_ascii c = 46 ∨ nat_of_ascii c = 45)%nat.
Proof.
  rewrite validLockName_spec, string_forallb_forall.
  split; intros [Hne H]; (split; [exact Hne|]); intros c Hc; apply in_lockNameClass_iff; auto.
Qed.
